(** * Verification of the remoteDev job-search client

    A shallow embedding of the hooks and of the job-items context provider
    (src/lib/hooks.ts, src/lib/utils.ts, contexts/JobItemsContextProvider.tsx)
    together with the properties stated about them.

    Conventions of the embedding.
    - A JavaScript [number] that the program only uses as an integer (ids,
      [daysAgo], page numbers, array indices, milliseconds) is a [Z]; the
      float [relevanceScore] is an exact rational [Q] (every finite double
      is one, and on finite doubles the sign of [b - a] is the sign of the
      exact difference).
    - [undefined] and [null] are [None].
    - React state is threaded explicitly: a hook is a function of its state
      and the event handlers are state transformers. *)

From Stdlib Require Import ZArith QArith Qcanon Lia Lqa List Sorted Permutation.
From Stdlib Require Import Ascii String Decimal DecimalString DecimalFacts.
From Stdlib Require Import DecimalPos DecimalN DecimalZ.
From stdpp Require Import base option list strings gmap.

Set Warnings "-register-all".

Local Open Scope Z_scope.

(** ** JavaScript values shared by the hooks *)

Module JS.

(** What a [throw] carries: an [Error] object (with its [name] and
    [message]), a string, or any other value. *)
Inductive thrown :=
| ErrorObject (name message : string)
| ThrownString (s : string)
| ThrownOther.

(** The outcome of evaluating an expression that may throw (or of awaiting
    a promise that may reject). *)
Inductive completion (A : Type) :=
| Normal (a : A)
| Throw (e : thrown).
Arguments Normal {A} a.
Arguments Throw {A} e.

Definition bind {A B : Type} (c : completion A) (k : A -> completion B)
  : completion B :=
  match c with
  | Normal a => k a
  | Throw e => Throw e
  end.

(** [new Error(message)]: an absent ([undefined]) message leaves the
    [message] property at its default, the empty string. *)
Definition new_Error (message : option string) : thrown :=
  ErrorObject "Error" (default "" message).

(** [a || b] on a string-or-null operand: [null] and [""] are falsy. *)
Definition or_else (a : option string) (b : string) : string :=
  match a with
  | Some s => if String.eqb s "" then b else s
  | None => b
  end.

(** [s.slice(1)] *)
Definition slice1 (s : string) : string :=
  match s with
  | EmptyString => EmptyString
  | String _ r => r
  end.

Fixpoint strip_prefix (p s : string) : option string :=
  match p with
  | EmptyString => Some s
  | String a p' =>
      match s with
      | String b s' => if Ascii.eqb a b then strip_prefix p' s' else None
      | EmptyString => None
      end
  end.

Definition is_digit (c : ascii) : bool :=
  (48 <=? nat_of_ascii c)%nat && (nat_of_ascii c <=? 57)%nat.

(** The longest prefix of decimal digits, and what follows it. *)
Fixpoint span_digits (s : string) : string * string :=
  match s with
  | EmptyString => (EmptyString, EmptyString)
  | String c r =>
      if is_digit c then
        let (ds, rest) := span_digits r in (String c ds, rest)
      else (EmptyString, s)
  end.

(** The first character of a string, if any, is not a decimal digit. *)
Definition no_digit_ahead (s : string) : Prop :=
  match s with
  | EmptyString => True
  | String c _ => is_digit c = false
  end.

Definition all_digits (s : string) : Prop :=
  forall c, In c (list_ascii_of_string s) -> is_digit c = true.

(** The first character of a printed integer: a minus sign or a digit. *)
Definition number_start (s : string) : Prop :=
  match s with
  | EmptyString => False
  | String c _ => c = "-"%char \/ is_digit c = true
  end.

(** The mathematical value of a string of decimal digits. *)
Definition digits_value (ds : string) : N :=
  match NilEmpty.uint_of_string ds with
  | Some d => Pos.of_uint d
  | None => 0%N
  end.

(** [Number.prototype.toString] on an integer: the decimal digits, with a
    leading minus sign for a negative number (JavaScript prints so up to
    [10^21], far beyond the integers a number holds exactly). *)
Definition integer_to_string (n : Z) : string :=
  NilZero.string_of_int (Z.to_int n).

End JS.

(** ** JavaScript arrays *)

Module JSArray.

Section Sort.
Context {A : Type}.
Variable comparefn : A -> A -> Q.

(** [Array.prototype.sort(comparefn)].  ECMAScript fixes the result for a
    consistent comparator: a stable sort in which [a] stays before [b]
    unless [comparefn a b > 0].  The embedding is the stable insertion
    sort: an element moves to the right past exactly the elements it
    compares strictly greater than. *)
Fixpoint insert (x : A) (l : list A) : list A :=
  match l with
  | [] => [x]
  | y :: l' =>
      if Qle_bool (comparefn x y) 0 then x :: y :: l'
      else y :: insert x l'
  end.

Fixpoint sort (l : list A) : list A :=
  match l with
  | [] => []
  | x :: l' => insert x (sort l')
  end.

(** [a] may stand before [b] in a sorted array. *)
Definition before (a b : A) : Prop := (comparefn a b <= 0)%Q.
End Sort.

(** [Array.prototype.slice(start, end)], with the relative-index rules of
    ECMAScript: a negative index counts from the end, and both indices are
    clamped to [0, length]. *)
Definition relative_index (len i : Z) : Z :=
  if i <? 0 then Z.max (len + i) 0 else Z.min i len.

Definition slice {A : Type} (l : list A) (start final : Z) : list A :=
  let len := Z.of_nat (length l) in
  let k := relative_index len start in
  let e := relative_index len final in
  take (Z.to_nat (e - k)) (drop (Z.to_nat k) l).

End JSArray.

(** ** The derived view state of [JobItemsContextProvider] *)

Module ViewState.

(** Modelled from the spec: the type [JobItem] of lib/types, which is not
    among the sources; its fields are those of the spec's data model (the
    provider reads [relevanceScore] and [daysAgo]). *)
Record JobItem := mkJobItem {
  id : Z;
  title : string;
  companyName : string;
  relevanceScore : Q;
  daysAgo : Z
}.

(** The comparator handed to [sort]; [SortBy] is a string at run time, so
    a value outside "relevant" and "recent" reaches the final [return 0]. *)
Definition comparator (sortBy : string) (a b : JobItem) : Q :=
  if String.eqb sortBy "relevant" then (relevanceScore b - relevanceScore a)%Q
  else if String.eqb sortBy "recent" then inject_Z (daysAgo a - daysAgo b)
  else 0%Q.

(** [[...(jobItems || [])].sort(...)] *)
Definition jobItemsSorted (sortBy : string) (jobItems : option (list JobItem))
  : list JobItem :=
  JSArray.sort (comparator sortBy) (default [] jobItems).

(** [jobItems?.length || 0] *)
Definition totalNumberOfResults (jobItems : option (list JobItem)) : Z :=
  match jobItems with
  | Some l => Z.of_nat (length l)
  | None => 0
  end.

Section Paging.
(** [RESULTS_PER_PAGE] of lib/constants, which is not among the sources:
    the page size is a parameter. *)
Variable RESULTS_PER_PAGE : Z.

(** [totalNumberOfResults / RESULTS_PER_PAGE]: a plain division, so the
    quotient is kept exact (meaningful for a non-zero page size). *)
Definition totalNumberOfPages (jobItems : option (list JobItem)) : Q :=
  (inject_Z (totalNumberOfResults jobItems) / inject_Z RESULTS_PER_PAGE)%Q.

Definition jobItemsSortedAndSliced (sorted : list JobItem) (currentPage : Z)
  : list JobItem :=
  JSArray.slice sorted
    (currentPage * RESULTS_PER_PAGE - RESULTS_PER_PAGE)
    (currentPage * RESULTS_PER_PAGE).
End Paging.

(** The provider's own state ([useState]) and the debounced search text it
    reads from the search-text context on every render. *)
Record ListState := mkListState {
  debouncedSearchText : string;
  currentPage : Z;
  sortBy : string
}.

Definition initial (searchText : string) : ListState :=
  {| debouncedSearchText := searchText; currentPage := 1; sortBy := "relevant" |}.

Definition setCurrentPage (f : Z -> Z) (s : ListState) : ListState :=
  {| debouncedSearchText := debouncedSearchText s;
     currentPage := f (currentPage s);
     sortBy := sortBy s |}.

Definition setSortBy (v : string) (s : ListState) : ListState :=
  {| debouncedSearchText := debouncedSearchText s;
     currentPage := currentPage s;
     sortBy := v |}.

Definition handleChangePage (direction : string) (s : ListState) : ListState :=
  if String.eqb direction "next" then setCurrentPage (fun prev => prev + 1) s
  else if String.eqb direction "previous" then setCurrentPage (fun prev => prev - 1) s
  else s.

Definition handleChangeSortBy (newSortBy : string) (s : ListState) : ListState :=
  setSortBy newSortBy (setCurrentPage (fun _ => 1) s).

(** A new debounced search text arrives from the search-text context: the
    provider re-renders with it; [useState] keeps [currentPage] and
    [sortBy], and nothing in the provider writes them on that render. *)
Definition searchTextChanged (text : string) (s : ListState) : ListState :=
  {| debouncedSearchText := text;
     currentPage := currentPage s;
     sortBy := sortBy s |}.

Inductive event :=
| ChangePage (direction : string)
| ChangeSortBy (newSortBy : string)
| SearchText (text : string).

Definition step (s : ListState) (e : event) : ListState :=
  match e with
  | ChangePage d => handleChangePage d s
  | ChangeSortBy v => handleChangeSortBy v s
  | SearchText t => searchTextChanged t s
  end.

Definition run (s : ListState) (es : list event) : ListState :=
  fold_left step es s.

(** The vocabulary of the paging properties: the elements of [l] at the
    indices [a <= i < b], the ceiling of a quotient, and the pages
    [1 .. ceil(length l / pageSize)] of a list, in order. *)
Definition window {A : Type} (l : list A) (a b : nat) : list A :=
  take (b - a) (drop a l).

Definition ceil_div (a b : Z) : Z := (a + b - 1) / b.

Definition all_pages (pageSize : Z) (l : list JobItem) : list (list JobItem) :=
  map (fun p => jobItemsSortedAndSliced pageSize l (Z.of_nat p))
      (seq 1 (Z.to_nat (ceil_div (Z.of_nat (length l)) pageSize))).

(** The page the provider exposes in a state: sort, then slice. *)
Definition page_view (RESULTS_PER_PAGE : Z) (jobItems : option (list JobItem))
    (s : ListState) : list JobItem :=
  jobItemsSortedAndSliced RESULTS_PER_PAGE
    (jobItemsSorted (sortBy s) jobItems) (currentPage s).

(** How often [direction] occurs in a list of page changes. *)
Definition count_direction (direction : string) (ds : list string) : Z :=
  Z.of_nat (length (filter (fun d => d = direction) ds)).

End ViewState.

(** ** JSON text, as the bookmark store writes and reads it *)

Module JSON.
Import JS.

(** The store holds arrays of integer ids, so JSON is embedded on the
    values built from [null], the booleans, integers and arrays; string
    and object literals and numbers with a fraction or an exponent are
    not part of this embedding (the parser below reports them as it
    reports any other unexpected character). *)
Inductive value :=
| Null
| Bool (b : bool)
| Number (n : Z)
| Array (elements : list value).

(** [JSON.stringify]: no white space, array elements joined by commas. *)
Fixpoint stringify (v : value) : string :=
  match v with
  | Null => "null"
  | Bool true => "true"
  | Bool false => "false"
  | Number n => integer_to_string n
  | Array l => "[" +:+ String.concat "," (map stringify l) +:+ "]"
  end.

(** JSON white space: space, tab, line feed, carriage return. *)
Definition is_ws (c : ascii) : bool :=
  let n := nat_of_ascii c in
  (n =? 32)%nat || (n =? 9)%nat || (n =? 10)%nat || (n =? 13)%nat.

Fixpoint skip_ws (s : string) : string :=
  match s with
  | EmptyString => EmptyString
  | String c r => if is_ws c then skip_ws r else s
  end.

Inductive parsed (A : Type) :=
| Parsed (a : A) (rest : string)
| SyntaxError
| OutOfFuel.
Arguments Parsed {A} a rest.
Arguments SyntaxError {A}.
Arguments OutOfFuel {A}.

Definition parsed_map {A B : Type} (f : A -> B) (p : parsed A) : parsed B :=
  match p with
  | Parsed a r => Parsed (f a) r
  | SyntaxError => SyntaxError
  | OutOfFuel => OutOfFuel
  end.

(** The integer part of the JSON number grammar: an optional minus sign,
    then either a single [0] or a non-zero digit followed by digits. *)
Definition parse_unsigned (s : string) : parsed Z :=
  match s with
  | EmptyString => SyntaxError
  | String c r =>
      if Ascii.eqb c "0" then Parsed 0 r
      else if is_digit c then
        let (ds, rest) := span_digits s in
        Parsed (Z.of_N (digits_value ds)) rest
      else SyntaxError
  end.

Definition parse_number (s : string) : parsed Z :=
  match strip_prefix "-" s with
  | Some r => parsed_map Z.opp (parse_unsigned r)
  | None => parse_unsigned s
  end.

(** Recursive descent over the text; [fuel] bounds the nesting and the
    number of elements, and [parse] below supplies enough of it. *)
Fixpoint parse_value (fuel : nat) (s : string) : parsed value :=
  match fuel with
  | O => OutOfFuel
  | S fuel =>
      let s := skip_ws s in
      match strip_prefix "null" s with
      | Some r => Parsed Null r
      | None =>
      match strip_prefix "true" s with
      | Some r => Parsed (Bool true) r
      | None =>
      match strip_prefix "false" s with
      | Some r => Parsed (Bool false) r
      | None =>
      match strip_prefix "[" s with
      | Some r =>
          match strip_prefix "]" (skip_ws r) with
          | Some r' => Parsed (Array []) r'
          | None => parsed_map Array (parse_elements fuel r)
          end
      | None => parsed_map Number (parse_number s)
      end end end end
  end
with parse_elements (fuel : nat) (s : string) : parsed (list value) :=
  match fuel with
  | O => OutOfFuel
  | S fuel =>
      match parse_value fuel s with
      | Parsed v r =>
          let r := skip_ws r in
          match strip_prefix "," r with
          | Some r' => parsed_map (cons v) (parse_elements fuel r')
          | None =>
              match strip_prefix "]" r with
              | Some r' => Parsed [v] r'
              | None => SyntaxError
              end
          end
      | SyntaxError => SyntaxError
      | OutOfFuel => OutOfFuel
      end
  end.

Definition enough_fuel (s : string) : nat := 2 * String.length s + 2.

Definition syntax_error : thrown :=
  ErrorObject "SyntaxError" "Unexpected token in JSON".

(** [JSON.parse]: one value, optionally surrounded by white space, and
    nothing else; anything else throws a [SyntaxError]. *)
Definition parse (s : string) : completion value :=
  match parse_value (enough_fuel s) s with
  | Parsed v rest =>
      if String.eqb (skip_ws rest) "" then Normal v else Throw syntax_error
  | SyntaxError => Throw syntax_error
  | OutOfFuel => Throw syntax_error
  end.

(** [v], printed and followed by [rest], is read back as [v], leaving
    [rest], whenever the fuel exceeds twice the length of the text. *)
Definition prints_back (v : value) : Prop :=
  forall rest fuel,
    no_digit_ahead rest ->
    (2 * String.length (stringify v +:+ rest) < fuel)%nat ->
    parse_value fuel (stringify v +:+ rest) = Parsed v rest.

End JSON.

(** ** [useLocalStorage] and the bookmark store *)

Module Storage.
Import JS.

(** [window.localStorage]: a map from keys to strings. *)
Definition getItem (key : string) (st : gmap string string) : option string :=
  st !! key.

Definition setItem (key value : string) (st : gmap string string)
  : gmap string string :=
  <[key := value]> st.

(** The lazy initializer of [useState]:
    [JSON.parse(localStorage.getItem(key) || JSON.stringify(initialValue))]. *)
Definition useLocalStorage_init (key : string) (initialValue : JSON.value)
    (st : gmap string string) : completion JSON.value :=
  JSON.parse (or_else (getItem key st) (JSON.stringify initialValue)).

(** The effect that runs after a render:
    [localStorage.setItem(key, JSON.stringify(value))]. *)
Definition useLocalStorage_effect (key : string) (value : JSON.value)
    (st : gmap string string) : gmap string string :=
  setItem key (JSON.stringify value) st.

(** The bookmark ids, an array of numbers, as the JSON value the hook
    holds. *)
Definition bookmarkedIds (ids : list Z) : JSON.value :=
  JSON.Array (JSON.Number <$> ids).

End Storage.

(** ** Numbers read from strings *)

Module Number.
Import JS.

(** A JavaScript number as the hooks see it: the rational its binary64
    value denotes (in lowest terms), [NaN], or an infinity. *)
Inductive number :=
| Num (q : Qc)
| NaN
| Infinity (negative : bool).

#[global] Instance number_eq_dec : EqDecision number.
Proof. solve_decision. Defined.

Definition number_encode (x : number) : Qc + (unit + bool) :=
  match x with
  | Num q => inl q
  | NaN => inr (inl tt)
  | Infinity b => inr (inr b)
  end.

Definition number_decode (x : Qc + (unit + bool)) : number :=
  match x with
  | inl q => Num q
  | inr (inl _) => NaN
  | inr (inr b) => Infinity b
  end.

#[global] Instance number_countable : Countable number.
Proof.
  apply (inj_countable' number_encode number_decode).
  intros []; reflexivity.
Defined.

Definition of_Z (n : Z) : number := Num (Q2Qc (inject_Z n)).

Definition neg (x : number) : number :=
  match x with
  | Num q => Num (- q)%Qc
  | NaN => NaN
  | Infinity b => Infinity (negb b)
  end.

(** [Boolean(x)] on a number: [0] and [NaN] are falsy. *)
Definition to_boolean (x : number) : bool :=
  match x with
  | Num q => negb (Qeq_bool q 0)
  | NaN => false
  | Infinity _ => true
  end.

(** The integer nearest to [a / b] for [a >= 0], the even one of two that
    are equally near. *)
Definition round_half_even (a : Z) (b : positive) : Z :=
  let f := a / Z.pos b in
  match 2 * (a mod Z.pos b) ?= Z.pos b with
  | Lt => f
  | Gt => f + 1
  | Eq => if Z.even f then f else f + 1
  end.

(** The largest [l] with [2^l <= a / b], for [a > 0]. *)
Definition log2_floor (a : Z) (b : positive) : Z :=
  let l := Z.log2 a - Z.log2 (Z.pos b) in
  let fits :=
    if 0 <=? l then 2 ^ l * Z.pos b <=? a
    else Z.pos b <=? a * 2 ^ (- l) in
  if fits then l else l - 1.

(** The Number value of the positive rational [a / b]: the nearest
    binary64 value, ties to even.  The unit in the last place is [2^e]
    with 53 significant bits, and never below [2^-1074] (subnormal
    numbers, and 0 below them); a result of [2^1024] or more is [Infinity]. *)
Definition binary64_pos (a : Z) (b : positive) : number :=
  let e := Z.max (log2_floor a b - 52) (-1074) in
  if 0 <? e then
    let m := round_half_even a (b * Z.to_pos (2 ^ e)) in
    if 2 ^ 1024 <=? m * 2 ^ e then Infinity false
    else Num (Q2Qc (inject_Z (m * 2 ^ e)))
  else
    let m := round_half_even (a * 2 ^ (- e)) b in
    Num (Q2Qc (m # Z.to_pos (2 ^ (- e)))).

(** The Number value of a mathematical value, to which [StringToNumber]
    rounds what a literal denotes (engines round every literal to the
    nearest value, also one of more than 20 significant digits). *)
Definition binary64 (q : Q) : number :=
  let r := Qred q in
  match Qnum r with
  | 0 => of_Z 0
  | Z.pos _ => binary64_pos (Qnum r) (Qden r)
  | Z.neg _ => neg (binary64_pos (- Qnum r) (Qden r))
  end.

(** White space that [StringToNumber] trims (the one-byte characters of
    [StrWhiteSpaceChar]): TAB, LF, VT, FF, CR and SP. *)
Definition is_str_ws (c : ascii) : bool :=
  let n := nat_of_ascii c in
  ((9 <=? n)%nat && (n <=? 13)%nat) || (n =? 32)%nat.

Fixpoint trim_start (s : string) : string :=
  match s with
  | EmptyString => EmptyString
  | String c r => if is_str_ws c then trim_start r else s
  end.

Fixpoint trim_end (s : string) : string :=
  match s with
  | EmptyString => EmptyString
  | String c r =>
      let r' := trim_end r in
      if is_str_ws c && String.eqb r' "" then EmptyString else String c r'
  end.

Definition trim (s : string) : string := trim_end (trim_start s).

(** The value of a digit in a radix up to 16. *)
Definition digit_of (c : ascii) : option N :=
  let n := N_of_ascii c in
  if (48 <=? n)%N && (n <=? 57)%N then Some (n - 48)%N
  else if (97 <=? n)%N && (n <=? 102)%N then Some (n - 87)%N
  else if (65 <=? n)%N && (n <=? 70)%N then Some (n - 55)%N
  else None.

Fixpoint radix_value (base acc : N) (s : string) : option N :=
  match s with
  | EmptyString => Some acc
  | String c r =>
      match digit_of c with
      | Some d =>
          if (d <? base)%N then radix_value base (acc * base + d)%N r
          else None
      | None => None
      end
  end.

(** [NonDecimalIntegerLiteral] without its two-character prefix. *)
Definition non_decimal (base : N) (digits : string) : number :=
  if String.eqb digits "" then NaN
  else match radix_value base 0 digits with
       | Some n => binary64 (inject_Z (Z.of_N n))
       | None => NaN
       end.

(** An optional sign, and what follows it. *)
Definition split_sign (s : string) : bool * string :=
  match strip_prefix "-" s with
  | Some r => (true, r)
  | None =>
      match strip_prefix "+" s with
      | Some r => (false, r)
      | None => (false, s)
      end
  end.

(** [ExponentPart], if any, up to the end of the string. *)
Definition exponent_part (s : string) : option Z :=
  if String.eqb s "" then Some 0
  else
    let after :=
      match strip_prefix "e" s with
      | Some r => Some r
      | None => strip_prefix "E" s
      end in
    match after with
    | None => None
    | Some r =>
        let (negative, r1) := split_sign r in
        let (ds, rest) := span_digits r1 in
        if String.eqb ds "" || negb (String.eqb rest "") then None
        else
          let e := Z.of_N (digits_value ds) in
          Some (if negative then - e else e)
    end.

(** [StrUnsignedDecimalLiteral]. *)
Definition unsigned_decimal (s : string) : number :=
  if String.eqb s "Infinity" then Infinity false
  else
    let (int_ds, r1) := span_digits s in
    let (frac_ds, r2) :=
      match strip_prefix "." r1 with
      | Some r => span_digits r
      | None => (EmptyString, r1)
      end in
    if String.eqb int_ds "" && String.eqb frac_ds "" then NaN
    else
      match exponent_part r2 with
      | None => NaN
      | Some e =>
          let i := inject_Z (Z.of_N (digits_value int_ds)) in
          let f := (inject_Z (Z.of_N (digits_value frac_ds))
                    / inject_Z (10 ^ Z.of_nat (String.length frac_ds)))%Q in
          binary64 ((i + f) * Qpower 10 e)
      end.


(** The integers a number holds exactly whatever their size in that
    range: those up to [2^53] in absolute value. *)
Definition exact_integer (n : Z) : Prop := Z.abs n <= 2 ^ 53.

(** [StringToNumber], which the unary [+] applies to a string: the
    trimmed text is empty (the number is [0]), a prefixed binary, octal or
    hexadecimal integer, or a signed decimal literal; anything else is
    [NaN]. *)
Definition to_number (s : string) : number :=
  let t := trim s in
  if String.eqb t "" then of_Z 0
  else
    match strip_prefix "0x" t, strip_prefix "0X" t with
    | Some r, _ | None, Some r => non_decimal 16 r
    | None, None =>
    match strip_prefix "0o" t, strip_prefix "0O" t with
    | Some r, _ | None, Some r => non_decimal 8 r
    | None, None =>
    match strip_prefix "0b" t, strip_prefix "0B" t with
    | Some r, _ | None, Some r => non_decimal 2 r
    | None, None =>
        let (negative, r) := split_sign t in
        if negative then neg (unsigned_decimal r) else unsigned_decimal r
    end end end.

End Number.

(** ** [useActiveId] *)

Module ActiveId.
Import JS Number.

(** [activeId] is [number | null]; [useState(null)] is its first value. *)
Definition initial : option number := None.

(** [const id = +window.location.hash.slice(1); setActiveId(id)] *)
Definition handleHashChange (location_hash : string) : option number :=
  Some (to_number (slice1 location_hash)).

(** The hook's value after its effect has run on mount ([hashes]' head is
    the fragment at that time) and after each later [hashchange] event. *)
Definition useActiveId (hashes : list string) : option number :=
  fold_left (fun _ h => handleHashChange h) hashes initial.

(** [Boolean(id)] on [number | null]. *)
Definition Boolean (id : option number) : bool :=
  match id with
  | Some x => to_boolean x
  | None => false
  end.

End ActiveId.

(** ** The remote fetch cache ([useQuery] of react-query) *)

Module Query.

Section Client.
Context {K : Type} `{Countable K} {V : Type}.

(** Modelled from the spec: [useQuery] and its query client belong to
    react-query, a dependency that is not among the sources; the model
    follows the contract of the remote fetch cache.  Data is cached per
    key, at most one request per key is in flight, a disabled query does
    not invoke its producer and is not loading, and [fetches] records every
    invocation of a producer (oldest first).  The options the hooks pass
    fix the rest: [retry: false] (a failed request is not repeated),
    [refetchOnWindowFocus: false], and a [staleTime] of one hour, within
    which cached data is not requested again. *)
Record client := mkClient {
  cache : gmap K V;
  inflight : gset K;
  fetches : list K
}.

Definition empty : client :=
  {| cache := ∅; inflight := ∅; fetches := [] |}.

Record result := mkResult {
  data : option V;
  isInitialLoading : bool
}.

(** Whether rendering an observer of [key] invokes the producer: only
    when it is enabled, nothing is cached and no request is in flight. *)
Definition must_fetch (key : K) (enabled : bool) (c : client) : bool :=
  enabled && bool_decide (cache c !! key = None)
          && bool_decide (key ∉ inflight c).

Definition observe (key : K) (enabled : bool) (c : client) : client :=
  if must_fetch key enabled c then
    {| cache := cache c;
       inflight := {[key]} ∪ inflight c;
       fetches := fetches c ++ [key] |}
  else c.

(** Modelled from the spec: react-query's
    [useQuery(key, producer, { enabled, ... })], as the client after the
    render and [{ data, isInitialLoading }]; [isInitialLoading] is
    "fetching, with no data yet". *)
Definition useQuery (key : K) (enabled : bool) (c : client)
  : client * result :=
  let c' := observe key enabled c in
  (c', {| data := cache c' !! key;
          isInitialLoading :=
            bool_decide (key ∈ inflight c')
            && bool_decide (cache c' !! key = None) |}).

(** The request for [key] settles: with data, which is cached, or with
    an error, which leaves the cache as it was. *)
Definition resolve (key : K) (v : V) (c : client) : client :=
  if bool_decide (key ∈ inflight c) then
    {| cache := <[key := v]> (cache c);
       inflight := inflight c ∖ {[key]};
       fetches := fetches c |}
  else c.

Definition reject (key : K) (c : client) : client :=
  {| cache := cache c;
     inflight := inflight c ∖ {[key]};
     fetches := fetches c |}.

(** A key whose request failed: it was requested, the request is no
    longer in flight, and nothing is cached for it.  The client keeps no
    observers and no error status of its own, so what it says of such a
    key is what holds for an observer that is new to the key; the
    properties of a repeated render are stated for keys that have not
    failed. *)
Definition failed (key : K) (c : client) : Prop :=
  key ∈ fetches c /\ cache c !! key = None /\ key ∉ inflight c.
End Client.
Arguments client K {_ _} V.
Arguments result V : clear implicits.

End Query.

(** ** The queries of lib/hooks and the error handler of lib/utils *)

Module Hooks.
Import JS Number.

(** Modelled from the spec: the type [JobItemExpanded] of lib/types, which
    is not among the sources; a [JobItem] together with its long-form
    description. *)
Record JobItemExpanded := mkJobItemExpanded {
  item : ViewState.JobItem;
  description_text : string
}.

(** A parsed response body, seen through the fields the hooks read:
    [description] of an error body, [jobItem] of [JobItemApiResponse] and
    [jobItems] of [JobItemsApiResponse]; a field the body lacks is
    [undefined].  The body is taken to be a JSON object, and a
    [description] it has to be a string, as the API's types declare;
    bodies of another shape ([null], a [description] that is not a
    string) are outside this type. *)
Record ApiBody := mkApiBody {
  description : option string;
  jobItem : option JobItemExpanded;
  jobItems : option (list ViewState.JobItem)
}.

(** A [Response]: its [ok] flag and the outcome of [res.json()]. *)
Record Response := mkResponse {
  ok : bool;
  json : completion ApiBody
}.

(** The two requests the hooks make to [BASE_API_URL]. *)
Inductive request :=
| GetJobItem (id : number)
| SearchJobItems (searchText : string).

Section Fetch.
(** [fetch], the HTTP client: it rejects on a network failure. *)
Variable fetch : request -> completion Response.

Definition fetchJobItem (id : number) : completion ApiBody :=
  bind (fetch (GetJobItem id)) (fun res =>
    if negb (ok res) then
      bind (json res) (fun errorData =>
        Throw (new_Error (description errorData)))
    else
      bind (json res) (fun data => Normal data)).

Definition fetchJobItems (searchText : string) : completion ApiBody :=
  bind (fetch (SearchJobItems searchText)) (fun res =>
    if negb (ok res) then
      bind (json res) (fun errorData =>
        Throw (new_Error (description errorData)))
    else
      bind (json res) (fun data => Normal data)).
End Fetch.

(** [handleError]: the messages given to [toast.error] so far are
    threaded as a list.  In the [instanceof Error] branch the source
    declares a fresh block-scoped [const message], so the outer [message]
    that reaches [toast.error] keeps its initial value. *)
Definition handleError (error : thrown) (toasts : list string) : list string :=
  let message := "" in
  let message :=
    match error with
    | ErrorObject _ error_message =>
        let inner_message := error_message in
        message
    | ThrownString s => s
    | ThrownOther => "An error occurred"
    end in
  toasts ++ [message].

(** A failed query calls [onError: handleError] once ([retry: false]). *)
Definition query_outcome {A : Type} (c : completion A) (toasts : list string)
  : list string :=
  match c with
  | Normal _ => toasts
  | Throw e => handleError e toasts
  end.

(** What [useSearchQuery] returns. *)
Record SearchResult := mkSearchResult {
  result_jobItems : option (list ViewState.JobItem);
  isLoading : bool
}.

(** [Boolean(searchText)]: the empty string is falsy. *)
Definition Boolean_string (s : string) : bool := negb (String.eqb s "").

(** [useSearchQuery(searchText)], keyed by [['job-items', searchText]]. *)
Definition useSearchQuery (searchText : string)
    (c : Query.client string ApiBody)
  : Query.client string ApiBody * SearchResult :=
  let (c', r) := Query.useQuery searchText (Boolean_string searchText) c in
  (c', {| result_jobItems := Query.data r ≫= jobItems;
          isLoading := Query.isInitialLoading r |}).

(** What [useJobItem] returns. *)
Record JobItemResult := mkJobItemResult {
  result_jobItem : option JobItemExpanded;
  jobItem_isLoading : bool
}.

(** [useJobItem(id)], keyed by [['job-item', id]] and enabled by
    [Boolean(id)]. *)
Definition useJobItem (id : option number)
    (c : Query.client (option number) ApiBody)
  : Query.client (option number) ApiBody * JobItemResult :=
  let (c', r) := Query.useQuery id (ActiveId.Boolean id) c in
  (c', {| result_jobItem := Query.data r ≫= jobItem;
          jobItem_isLoading := Query.isInitialLoading r |}).

(** What can happen to the search query's client: the provider renders
    [useSearchQuery] with some text, or a request in flight settles. *)
Inductive search_event :=
| Render (searchText : string)
| Resolved (searchText : string) (body : ApiBody)
| Rejected (searchText : string).

Definition search_step (c : Query.client string ApiBody) (e : search_event)
  : Query.client string ApiBody :=
  match e with
  | Render t => fst (useSearchQuery t c)
  | Resolved t body => Query.resolve t body c
  | Rejected t => Query.reject t c
  end.

(** The empty search text is never cached, in flight or fetched. *)
Definition empty_text_idle (c : Query.client string ApiBody) : Prop :=
  Query.cache c !! "" = None /\
  ("" ∉ Query.inflight c) /\
  ("" ∉ Query.fetches c).

End Hooks.

(** ** [useDebounce] *)

Module Debounce.

Section Hook.
Context {T : Type} `{EqDecision T}.
Variable delay : Z.

(** The hook between renders: the [value] of the last render, the
    [debouncedValue] state, the timer the last effect left pending (its
    due time and the value its callback captured), and the calls of
    [setDebouncedValue] made so far, each with its time. *)
Record hook := mkHook {
  value : T;
  debouncedValue : T;
  timer : option (Z * T);
  propagated : list (Z * T)
}.

(** First render at time [now]: [useState(value)], then the effect
    [setTimeout(() => setDebouncedValue(value), delay)]; a timer set
    with a negative delay is due at once, as with a delay of 0. *)
Definition mount (now : Z) (v : T) : hook :=
  {| value := v; debouncedValue := v;
     timer := Some (now + Z.max 0 delay, v); propagated := [] |}.

(** Time passes up to [now]: a timer that is due fires. *)
Definition advance (now : Z) (h : hook) : hook :=
  match timer h with
  | Some (due, v) =>
      if due <=? now then
        {| value := value h; debouncedValue := v;
           timer := None; propagated := propagated h ++ [(due, v)] |}
      else h
  | None => h
  end.

(** A render at time [now] with the prop [v].  The effect depends on
    [[value, delay]]: when [v] differs from the previous render its
    cleanup [clearTimeout(timerId)] runs and a new timer is set. *)
Definition render (now : Z) (v : T) (h : hook) : hook :=
  let h := advance now h in
  if decide (v = value h) then h
  else
    {| value := v; debouncedValue := debouncedValue h;
       timer := Some (now + Z.max 0 delay, v); propagated := propagated h |}.

Definition run (h : hook) (inputs : list (Z * T)) : hook :=
  fold_left (fun h i => render (fst i) (snd i) h) inputs h.

(** The hook at time [horizon], mounted by the first input and rendered
    again at each later one. *)
Definition observe (first : Z * T) (later : list (Z * T)) (horizon : Z)
  : hook :=
  advance horizon (run (mount (fst first) (snd first)) later).

(** Inputs that are not replaced before their delay has passed, each at
    the time its timer fires, up to [horizon]. *)
Fixpoint survivors (inputs : list (Z * T)) (horizon : Z) : list (Z * T) :=
  match inputs with
  | [] => []
  | (t, v) :: rest =>
      let next := match rest with
                  | [] => horizon
                  | (t', _) :: _ => t'
                  end in
      (if t + delay <=? next then [(t + delay, v)] else [])
      ++ survivors rest horizon
  end.

(** A timeline of input changes: times do not decrease and every input
    differs from the one before it. *)
Fixpoint changes (prev : Z * T) (inputs : list (Z * T)) : Prop :=
  match inputs with
  | [] => True
  | i :: rest =>
      fst prev <= fst i /\ snd i <> snd prev /\ changes i rest
  end.

(** A burst: every change arrives while the timer of the previous one is
    still pending. *)
Fixpoint burst (prev : Z * T) (inputs : list (Z * T)) : Prop :=
  match inputs with
  | [] => True
  | i :: rest => fst i < fst prev + delay /\ burst i rest
  end.
End Hook.
Arguments hook T : clear implicits.

End Debounce.

(** ** [useJobItems]: the detail queries of a list of ids *)

Module SavedItems.
Import JS Number Hooks.

Section Queries.
Context {K : Type} `{Countable K} {V : Type}.

(** One entry of the array [useQueries] returns: [data] and [isLoading]
    ("no data yet"). *)
Record observer := mkObserver {
  observer_data : option V;
  observer_isLoading : bool
}.

(** Modelled from the spec: [useQueries] of react-query, a dependency that
    is not among the sources, on the contract of the remote fetch cache:
    the queries of a list of keys share the client, each key is observed
    as [useQuery] observes it (no [enabled] option is passed, so every
    query is enabled), and the results come in the order of the keys. *)
Definition useQueries (keys : list K) (c : Query.client K V)
  : Query.client K V * list observer :=
  let c' := fold_left (fun c k => Query.observe k true c) keys c in
  (c', (fun k =>
          {| observer_data := Query.cache c' !! k;
             observer_isLoading := bool_decide (Query.cache c' !! k = None) |})
       <$> keys).
End Queries.
Arguments observer V : clear implicits.

(** What [useJobItems] returns. *)
Record JobItemsResult := mkJobItemsResult {
  saved_jobItems : list JobItemExpanded;
  saved_isLoading : bool
}.

(** [useJobItems(ids)], each query keyed by [['job-item', id]]:
    [results.map(result => result.data?.jobItem).filter(Boolean)] and
    [results.some(result => result.isLoading)]. *)
Definition useJobItems (ids : list number)
    (c : Query.client (option number) ApiBody)
  : Query.client (option number) ApiBody * JobItemsResult :=
  let (c', results) := useQueries (Some <$> ids) c in
  (c', {| saved_jobItems :=
            omap (fun r => observer_data r ≫= jobItem) results;
          saved_isLoading := existsb observer_isLoading results |}).

End SavedItems.

(** ** [useOnClickOutside] *)

Module ClickOutside.

Section Handler.
Context {node : Type}.
(** [a.contains(b)] of the DOM. *)
Variable contains : node -> node -> bool.

(** [!ref.current?.contains(e.target)]: a ref that is not attached
    ([current] is null) contains nothing. *)
Definition misses (target : node) (ref : option node) : bool :=
  negb (from_option (fun el => contains el target) false ref).

(** [handleClick]: [handler()] runs when every ref misses the target;
    the runs of [handler] are counted. *)
Definition handleClick (refs : list (option node)) (target : node)
    (calls : nat) : nat :=
  if forallb (misses target) refs then S calls else calls.

(** The hook over time: whether its listener is on the document, and how
    often [handler] has run. *)
Record hook := mkHook {
  listening : bool;
  calls : nat
}.

Inductive event :=
| Mount
| Unmount
| Click (target : node).

(** The effect adds the listener, its cleanup removes it, and a click
    reaches [handleClick] only while the listener is there. *)
Definition step (refs : list (option node)) (h : hook) (e : event) : hook :=
  match e with
  | Mount => {| listening := true; calls := calls h |}
  | Unmount => {| listening := false; calls := calls h |}
  | Click target =>
      if listening h then
        {| listening := true; calls := handleClick refs target (calls h) |}
      else h
  end.

Definition run (refs : list (option node)) (h : hook) (es : list event)
  : hook :=
  fold_left (step refs) es h.
End Handler.

End ClickOutside.

(** ** Vocabulary of the further properties *)

Module Vocabulary.
Import ViewState.

#[global] Instance Qeq_decision (p q : Q) : Decision (p == q)%Q := Qeq_dec p q.

(** The page movement one event asks for. *)
Definition page_move (e : event) : Z :=
  match e with
  | ChangePage d =>
      if String.eqb d "next" then 1
      else if String.eqb d "previous" then -1 else 0
  | _ => 0
  end.

Definition page_moves (es : list event) : Z :=
  foldr (fun e n => page_move e + n) 0 es.

Definition is_sort_change (e : event) : Prop :=
  match e with
  | ChangeSortBy _ => True
  | _ => False
  end.

(** A string made of white space that [StringToNumber] trims. *)
Definition all_str_ws (s : string) : Prop :=
  forall c, In c (list_ascii_of_string s) -> Number.is_str_ws c = true.

End Vocabulary.

(** * Properties *)

(** ** Sorting and paging *)

Section SortFacts.
Context {A : Type}.
Variable comparefn : A -> A -> Q.

Abbreviation before := (JSArray.before comparefn).

Hypothesis before_total : forall a b, ~ before a b -> before b a.
Hypothesis before_trans : forall a b c, before a b -> before b c -> before a c.

Lemma insert_perm x l : JSArray.insert comparefn x l ≡ₚ x :: l.
Proof.
  induction l as [|y l IH]; simpl; [done|].
  destruct (Qle_bool (comparefn x y) 0); [done|].
  rewrite IH. apply Permutation_swap.
Qed.

Lemma sort_perm l : JSArray.sort comparefn l ≡ₚ l.
Proof.
  induction l as [|x l IH]; simpl; [done|].
  rewrite insert_perm. by rewrite IH.
Qed.

Lemma insert_sorted x l :
  StronglySorted before l -> StronglySorted before (JSArray.insert comparefn x l).
Proof.
  induction 1 as [|y l Hl IH Hy]; simpl.
  - repeat constructor.
  - destruct (Qle_bool (comparefn x y) 0) eqn:E.
    + apply Qle_bool_iff in E.
      constructor; [by constructor|].
      constructor; [exact E|].
      eapply Forall_impl; [exact Hy|]. intros z Hz. by eapply before_trans.
    + constructor; [exact IH|].
      assert (Hyx : before y x).
      { apply before_total. intros Hxy. apply Qle_bool_iff in Hxy. congruence. }
      rewrite insert_perm. by constructor.
Qed.

Lemma sort_sorted l : StronglySorted before (JSArray.sort comparefn l).
Proof.
  induction l as [|x l IH]; simpl; [constructor|]. by apply insert_sorted.
Qed.
End SortFacts.

(** A comparator that answers [0] on the elements of the list leaves the
    list as it is. *)
Lemma sort_noop {A : Type} (comparefn : A -> A -> Q) (l : list A) :
  (forall a b, (comparefn a b == 0)%Q) -> JSArray.sort comparefn l = l.
Proof.
  intros H0. induction l as [|x l IH]; simpl; [done|].
  rewrite IH. destruct l as [|y l]; simpl; [done|].
  assert (E : Qle_bool (comparefn x y) 0 = true).
  { apply Qle_bool_iff. rewrite (H0 x y). apply Qle_refl. }
  by rewrite E.
Qed.

Lemma StronglySorted_weaken {A : Type} (R R' : A -> A -> Prop) (l : list A) :
  (forall a b, R a b -> R' a b) -> StronglySorted R l -> StronglySorted R' l.
Proof.
  intros HR. induction 1 as [|x l Hl IH Hx]; constructor; [done|].
  eapply Forall_impl; [exact Hx|]. auto.
Qed.

Import ViewState.

Lemma comparator_relevant a b :
  comparator "relevant" a b = (relevanceScore b - relevanceScore a)%Q.
Proof. reflexivity. Qed.

Lemma comparator_recent a b :
  comparator "recent" a b = inject_Z (daysAgo a - daysAgo b).
Proof. reflexivity. Qed.

Lemma comparator_other sortBy a b :
  sortBy <> "relevant" -> sortBy <> "recent" -> comparator sortBy a b = 0%Q.
Proof.
  intros H1 H2. unfold comparator.
  apply String.eqb_neq in H1, H2. by rewrite H1, H2.
Qed.

(** C1. Whatever the job list and the value of [sortBy], the sorted list
    is a rearrangement of the input; under "relevant" it is non-increasing
    in [relevanceScore], under "recent" it is non-decreasing in [daysAgo],
    and for any other value the comparator answers 0 on every pair and the
    list keeps its order. *)
Theorem C1_sorted_order (jobItems : option (list JobItem)) (sortBy : string) :
  jobItemsSorted sortBy jobItems ≡ₚ default [] jobItems /\
  (sortBy = "relevant" ->
     StronglySorted (fun a b => (relevanceScore b <= relevanceScore a)%Q)
                    (jobItemsSorted sortBy jobItems)) /\
  (sortBy = "recent" ->
     StronglySorted (fun a b => daysAgo a <= daysAgo b)
                    (jobItemsSorted sortBy jobItems)) /\
  (sortBy <> "relevant" -> sortBy <> "recent" ->
     (forall a b, comparator sortBy a b = 0%Q) /\
     jobItemsSorted sortBy jobItems = default [] jobItems).
Proof.
  unfold jobItemsSorted. split; [apply sort_perm|].
  split; [|split].
  - intros ->.
    eapply StronglySorted_weaken; [|apply sort_sorted]; unfold JSArray.before.
    + intros a b. rewrite comparator_relevant. lra.
    + intros a b. rewrite !comparator_relevant. lra.
    + intros a b c. rewrite !comparator_relevant. lra.
  - intros ->.
    eapply StronglySorted_weaken; [|apply sort_sorted]; unfold JSArray.before.
    + intros a b. rewrite comparator_recent.
      rewrite <- (Zle_Qle _ 0). lia.
    + intros a b. rewrite !comparator_recent.
      rewrite <- !(Zle_Qle _ 0). lia.
    + intros a b c. rewrite !comparator_recent.
      rewrite <- !(Zle_Qle _ 0). lia.
  - intros H1 H2. split; [intros; by apply comparator_other|].
    apply sort_noop. intros a b. by rewrite comparator_other.
Qed.

(** The fixture of the spec: ids 1 and 2 with scores 0.9 and 0.95; with
    [daysAgo] 5 and 10 the two orders differ. *)
Example C1_fixture :
  let j1 := mkJobItem 1 "a" "x" (9 # 10) 5 in
  let j2 := mkJobItem 2 "b" "y" (95 # 100) 10 in
  id <$> jobItemsSorted "relevant" (Some [j1; j2]) = [2; 1] /\
  id <$> jobItemsSorted "recent" (Some [j1; j2]) = [1; 2] /\
  id <$> jobItemsSorted "other" (Some [j1; j2]) = [1; 2] /\
  jobItemsSorted "relevant" None = [].
Proof. repeat split. Qed.

Lemma slice_window {A : Type} (l : list A) (a b : Z) :
  0 <= a -> 0 <= b ->
  JSArray.slice l a b = window l (Z.to_nat a) (Z.to_nat b).
Proof.
  intros Ha Hb. unfold JSArray.slice, JSArray.relative_index, window.
  destruct (Z.ltb_spec a 0) as [?|_]; [lia|].
  destruct (Z.ltb_spec b 0) as [?|_]; [lia|].
  destruct (Z_le_gt_dec (Z.of_nat (length l)) a) as [Hge|Hlt].
  - rewrite !drop_ge by lia. by rewrite !take_nil.
  - rewrite (Z.min_l a) by lia.
    destruct (Z_le_gt_dec b (Z.of_nat (length l))) as [Hb'|Hb'].
    + rewrite (Z.min_l b) by lia. f_equal. lia.
    + rewrite (Z.min_r b) by lia.
      rewrite !take_ge; [done| |]; rewrite length_drop; lia.
Qed.

Lemma window_pages {A : Type} (R n : nat) (l : list A) :
  (length l <= n * R)%nat ->
  concat (map (fun p => window l ((p - 1) * R) (p * R)) (seq 1 n)) = l.
Proof.
  revert l. induction n as [|n IH]; intros l Hl.
  - destruct l; simpl in *; [done|lia].
  - cbn [seq map concat]. rewrite <- seq_shift, map_map.
    transitivity ((take R l ++ drop R l)%list); [|apply take_drop].
    f_equal.
    + unfold window. rewrite drop_0. f_equal. lia.
    + etransitivity; [|apply (IH (drop R l)); rewrite length_drop; lia].
      f_equal. apply map_ext_in. intros p Hp. apply in_seq in Hp.
      unfold window. rewrite drop_drop. f_equal; [nia|]. f_equal. nia.
Qed.

Lemma ceil_div_bound (a b : Z) :
  0 < b -> a <= ceil_div a b * b < a + b.
Proof.
  intros Hb. unfold ceil_div.
  pose proof (Z.div_mod (a + b - 1) b ltac:(lia)).
  pose proof (Z.mod_pos_bound (a + b - 1) b Hb). nia.
Qed.

(** C2. For a page size that is not negative and a page number from 1
    on, the page is the slice of the sorted list at the indices
    [(currentPage-1)*pageSize <= i < currentPage*pageSize]; it has at most
    [pageSize] elements; and, the page size being positive, the pages
    [1 .. ceil(length/pageSize)] put one after the other are the sorted
    list. *)
Theorem C2_pagination (RESULTS_PER_PAGE : Z) (sorted : list JobItem)
    (currentPage : Z) :
  0 <= RESULTS_PER_PAGE -> 1 <= currentPage ->
  jobItemsSortedAndSliced RESULTS_PER_PAGE sorted currentPage
    = window sorted (Z.to_nat ((currentPage - 1) * RESULTS_PER_PAGE))
                    (Z.to_nat (currentPage * RESULTS_PER_PAGE)) /\
  Z.of_nat (length (jobItemsSortedAndSliced RESULTS_PER_PAGE sorted currentPage))
    <= RESULTS_PER_PAGE /\
  (0 < RESULTS_PER_PAGE -> concat (all_pages RESULTS_PER_PAGE sorted) = sorted).
Proof.
  intros HR Hc.
  assert (Hpage : forall c, 1 <= c ->
    jobItemsSortedAndSliced RESULTS_PER_PAGE sorted c
    = window sorted (Z.to_nat ((c - 1) * RESULTS_PER_PAGE))
                    (Z.to_nat (c * RESULTS_PER_PAGE))).
  { intros c Hc'. unfold jobItemsSortedAndSliced.
    rewrite slice_window by nia. f_equal. f_equal. lia. }
  split; [by apply Hpage|]. split.
  - rewrite Hpage by done. unfold window. rewrite length_take. nia.
  - intros HR'. unfold all_pages.
    set (n := Z.to_nat (ceil_div (Z.of_nat (length sorted)) RESULTS_PER_PAGE)).
    etransitivity;
      [|apply (window_pages (Z.to_nat RESULTS_PER_PAGE) n sorted)].
    + f_equal. apply map_ext_in. intros p Hp. apply in_seq in Hp.
      rewrite Hpage by lia. f_equal; nia.
    + pose proof (ceil_div_bound (Z.of_nat (length sorted)) RESULTS_PER_PAGE HR').
      subst n. nia.
Qed.

Lemma C2_pagination_witness :
  let l := (fun i => mkJobItem i "t" "c" 0 i) <$> [1; 2; 3; 4; 5; 6; 7; 8; 9; 10] in
  id <$> jobItemsSortedAndSliced 7 l 2 = [8; 9; 10] /\
  (jobItemsSortedAndSliced 7 l 2 = window l 7 14 /\
   Z.of_nat (length (jobItemsSortedAndSliced 7 l 2)) <= 7 /\
   (0 < 7 -> concat (all_pages 7 l) = l)).
Proof.
  split; [reflexivity|].
  apply (C2_pagination 7 _ 2); lia.
Defined.

(** ** The list view-state machine *)

Lemma handleChangeSortBy_page s newSortBy :
  currentPage (handleChangeSortBy newSortBy s) = 1.
Proof. reflexivity. Qed.

Lemma searchTextChanged_page s text :
  currentPage (searchTextChanged text s) = currentPage s.
Proof. reflexivity. Qed.

(** C3. A change of [sortBy] sets [currentPage] to 1, but a change of the
    debounced search text leaves [currentPage] where it was: after two
    "next" steps the page is 3, and it is still 3 once a new search text
    has arrived. *)
Theorem C3_search_text_keeps_page :
  (forall s newSortBy, currentPage (step s (ChangeSortBy newSortBy)) = 1) /\
  (forall s text, currentPage (step s (SearchText text)) = currentPage s) /\
  currentPage (run (initial "react") [ChangePage "next"; ChangePage "next"]) = 3 /\
  currentPage (run (initial "react")
                 [ChangePage "next"; ChangePage "next"; SearchText "vue"]) = 3.
Proof. repeat split. Qed.

Lemma run_page_changes (s : ListState) (directions : list string) :
  currentPage (run s (ChangePage <$> directions))
  = currentPage s + count_direction "next" directions
                  - count_direction "previous" directions.
Proof.
  revert s. unfold count_direction.
  induction directions as [|d ds IH]; intros s; simpl; [lia|].
  rewrite IH. unfold handleChangePage. rewrite !filter_cons.
  destruct (String.eqb_spec d "next") as [->|Hn].
  - rewrite decide_True by done. rewrite decide_False by done. simpl. lia.
  - rewrite (decide_False (P := d = "next")) by done.
    destruct (String.eqb_spec d "previous") as [->|Hp].
    + rewrite decide_True by done. simpl. lia.
    + rewrite decide_False by done. lia.
Qed.

Lemma window_nonempty {A : Type} (l : list A) (R c : Z) :
  0 < R -> 1 <= c ->
  window l (Z.to_nat ((c - 1) * R)) (Z.to_nat (c * R)) <> []
  <-> c <= ceil_div (Z.of_nat (length l)) R.
Proof.
  intros HR Hc.
  pose proof (ceil_div_bound (Z.of_nat (length l)) R HR) as Hk.
  unfold window. rewrite <- length_zero_iff_nil, length_take, length_drop.
  split; intros H; nia.
Qed.

Lemma quotient_is_integer (n k R : Z) :
  0 < R -> (inject_Z n / inject_Z R == inject_Z k)%Q <-> n = k * R.
Proof.
  intros HR. destruct R as [|p|p]; try lia.
  unfold Qeq, Qdiv, Qmult, Qinv, inject_Z. simpl. lia.
Qed.

Lemma totalNumberOfResults_sorted sortBy jobItems :
  Z.of_nat (length (jobItemsSorted sortBy jobItems))
  = totalNumberOfResults jobItems.
Proof.
  unfold jobItemsSorted. rewrite (Permutation_length (sort_perm _ _)).
  by destruct jobItems.
Qed.

(** C4, as the code has it.  [handleChangePage] moves [currentPage] by one
    in either direction without a bound, so after any page changes it is
    [1 + #next - #previous]; from page 1 on, the exposed page is non-empty
    exactly up to page [ceil(totalResults/pageSize)]; and the exposed
    [totalNumberOfPages] is the exact quotient, which is that ceiling only
    when the page size divides the number of results. *)
Theorem C4_navigation_unclamped (RESULTS_PER_PAGE : Z)
    (jobItems : option (list JobItem)) (text : string)
    (directions : list string) :
  0 < RESULTS_PER_PAGE ->
  let s := run (initial text) (ChangePage <$> directions) in
  let pages := ceil_div (totalNumberOfResults jobItems) RESULTS_PER_PAGE in
  currentPage s = 1 + count_direction "next" directions
                    - count_direction "previous" directions /\
  (1 <= currentPage s ->
     page_view RESULTS_PER_PAGE jobItems s <> [] <-> currentPage s <= pages) /\
  ((totalNumberOfPages RESULTS_PER_PAGE jobItems == inject_Z pages)%Q
     <-> (totalNumberOfResults jobItems) mod RESULTS_PER_PAGE = 0).
Proof.
  intros HR s pages. split; [apply run_page_changes|]. split.
  - intros Hc. unfold page_view, jobItemsSortedAndSliced.
    rewrite slice_window by nia.
    replace (currentPage s * RESULTS_PER_PAGE - RESULTS_PER_PAGE)
      with ((currentPage s - 1) * RESULTS_PER_PAGE) by lia.
    rewrite window_nonempty by done.
    by rewrite totalNumberOfResults_sorted.
  - unfold totalNumberOfPages. subst pages.
    set (n := totalNumberOfResults jobItems).
    pose proof (ceil_div_bound n RESULTS_PER_PAGE HR) as Hk.
    set (k := ceil_div n RESULTS_PER_PAGE) in *.
    rewrite (quotient_is_integer n k RESULTS_PER_PAGE HR).
    split.
    + intros E. rewrite E. apply Z.mod_mul. lia.
    + intros E. pose proof (Z.div_mod n RESULTS_PER_PAGE ltac:(lia)) as Hq.
      rewrite E, Z.add_0_r in Hq. set (q := n / RESULTS_PER_PAGE) in *.
      assert (q <= k) by nia. assert (k < q + 1) by nia.
      replace k with q by lia. lia.
Qed.

Lemma C4_navigation_unclamped_witness :
  let j := mkJobItem 1 "t" "c" 1 0 in
  let s := run (initial "") (ChangePage <$> ["next"; "previous"; "previous"]) in
  currentPage s = 0 /\
  (1 <= currentPage s ->
     page_view 7 (Some [j]) s <> [] <-> currentPage s <= ceil_div 1 7) /\
  ((totalNumberOfPages 7 (Some [j]) == inject_Z (ceil_div 1 7))%Q
     <-> 1 mod 7 = 0).
Proof.
  apply (C4_navigation_unclamped 7 (Some [mkJobItem 1 "t" "c" 1 0]) ""
           ["next"; "previous"; "previous"]). lia.
Defined.

(** C4 as stated fails: one "previous" step from the first page reaches
    page 0, where the exposed page is empty although there is a result,
    and the exposed page count for one result is 1/7, not 1. *)
Lemma C4_counterexample :
  ~ (forall (RESULTS_PER_PAGE : Z) (jobItems : option (list JobItem))
            (directions : list string),
       0 < RESULTS_PER_PAGE ->
       let s := run (initial "") (ChangePage <$> directions) in
       let pages := ceil_div (totalNumberOfResults jobItems) RESULTS_PER_PAGE in
       (totalNumberOfResults jobItems <> 0 ->
          page_view RESULTS_PER_PAGE jobItems s <> []) /\
       1 <= currentPage s <= pages /\
       (totalNumberOfPages RESULTS_PER_PAGE jobItems == inject_Z pages)%Q).
Proof.
  intros H.
  destruct (H 7 (Some [mkJobItem 1 "t" "c" 1 0]) ["previous"] ltac:(lia))
    as (Hpage & _ & _).
  apply Hpage; [cbv; discriminate|reflexivity].
Qed.

(** ** JSON text and the bookmark store *)

Import JS.
#[local] Arguments String.append : simpl nomatch.

Lemma strip_prefix_length p s r :
  strip_prefix p s = Some r -> String.length s = (String.length p + String.length r)%nat.
Proof.
  revert s. induction p as [|a p IH]; intros s; simpl.
  - by intros [= ->].
  - destruct s as [|b s]; [done|]. destruct (Ascii.eqb a b); [|done].
    intros Hr. simpl. by rewrite (IH _ Hr).
Qed.

Lemma strip_prefix_app p s : strip_prefix p (p +:+ s) = Some s.
Proof.
  induction p as [|a p IH]; simpl; [done|]. by rewrite Ascii.eqb_refl.
Qed.

Lemma span_digits_length s ds rest :
  span_digits s = (ds, rest) ->
  String.length s = (String.length ds + String.length rest)%nat.
Proof.
  revert ds rest. induction s as [|c s IH]; intros ds rest; simpl.
  - by intros [= <- <-].
  - destruct (is_digit c).
    + destruct (span_digits s) as [ds' rest'] eqn:E. intros [= <- <-].
      simpl. by rewrite (IH _ _ eq_refl).
    + by intros [= <- <-].
Qed.

Lemma span_digits_app ds rest :
  all_digits ds -> no_digit_ahead rest -> span_digits (ds +:+ rest) = (ds, rest).
Proof.
  intros Hds Hrest. induction ds as [|c ds IH]; cbn [span_digits String.append].
  - destruct rest as [|c r]; [done|]. cbn [span_digits]. simpl in Hrest. by rewrite Hrest.
  - rewrite (Hds c) by (simpl; auto).
    rewrite IH; [done|]. intros c' Hc'. apply Hds. simpl. auto.
Qed.

Lemma string_of_uint_digits d : all_digits (NilEmpty.string_of_uint d).
Proof.
  induction d; intros c; simpl; try done;
    (intros [<-|Hc]; [reflexivity|by apply IHd]).
Qed.

Lemma pos_to_uint_normal p : unorm (Pos.to_uint p) = Pos.to_uint p.
Proof.
  rewrite <- DecimalPos.Unsigned.to_of, DecimalPos.Unsigned.of_to. reflexivity.
Qed.

Lemma pos_to_uint_head p :
  match Pos.to_uint p with
  | Nil | D0 _ => False
  | _ => True
  end.
Proof.
  pose proof (pos_to_uint_normal p) as Hn.
  pose proof (DecimalPos.Unsigned.to_uint_nonzero p) as Hz.
  destruct (Pos.to_uint p) as [|d| | | | | | | | |] eqn:E; try done.
  rewrite unorm_D0 in Hn.
  assert (Hd : d <> Nil) by (intros ->; by apply Hz).
  pose proof (nb_digits_unorm d Hd) as Hlen. rewrite Hn in Hlen.
  simpl in Hlen. lia.
Qed.

Lemma digits_value_pos p :
  digits_value (NilEmpty.string_of_uint (Pos.to_uint p)) = N.pos p.
Proof.
  unfold digits_value. rewrite NilEmpty.usu. apply DecimalPos.Unsigned.of_to.
Qed.

Lemma string_app_assoc (a b c : string) : (a +:+ b) +:+ c = a +:+ (b +:+ c).
Proof. induction a as [|x a IH]; simpl; [done|]. by rewrite IH. Qed.

Lemma string_app_length (a b : string) :
  String.length (a +:+ b) = (String.length a + String.length b)%nat.
Proof. induction a as [|x a IH]; simpl; [done|]. by rewrite IH. Qed.

Lemma skip_ws_length s : (String.length (JSON.skip_ws s) <= String.length s)%nat.
Proof.
  induction s as [|c s IH]; simpl; [done|].
  destruct (JSON.is_ws c); simpl; lia.
Qed.

Lemma parse_unsigned_length s n r :
  JSON.parse_unsigned s = JSON.Parsed n r ->
  (String.length r < String.length s)%nat.
Proof.
  unfold JSON.parse_unsigned. destruct s as [|c s]; [done|].
  destruct (Ascii.eqb c "0"); [intros [= _ <-]; simpl; lia|].
  destruct (is_digit c) eqn:Hc; [|done].
  destruct (span_digits (String c s)) as [ds rest] eqn:E.
  intros [= _ <-]. pose proof (span_digits_length _ _ _ E) as Hlen.
  cbn [span_digits] in E. rewrite Hc in E.
  destruct (span_digits s) as [ds' rest']. injection E as <- <-.
  simpl in *. lia.
Qed.

Lemma parse_number_length s n r :
  JSON.parse_number s = JSON.Parsed n r ->
  (String.length r < String.length s)%nat.
Proof.
  unfold JSON.parse_number.
  destruct (strip_prefix "-" s) as [s'|] eqn:E.
  - apply strip_prefix_length in E. simpl in E.
    destruct (JSON.parse_unsigned s') as [m r'| |] eqn:E'; simpl; try done.
    intros [= _ <-]. apply parse_unsigned_length in E'. lia.
  - apply parse_unsigned_length.
Qed.

Lemma parsed_map_inv {A B : Type} (f : A -> B) (p : JSON.parsed A) b r :
  JSON.parsed_map f p = JSON.Parsed b r ->
  exists a, p = JSON.Parsed a r /\ b = f a.
Proof. destruct p; simpl; [|done..]. intros [= <- <-]. eauto. Qed.

(** The parser consumes at least one character for a value. *)
Lemma parse_length (fuel : nat) :
  (forall s v r, JSON.parse_value fuel s = JSON.Parsed v r ->
     (String.length r < String.length s)%nat) /\
  (forall s vs r, JSON.parse_elements fuel s = JSON.Parsed vs r ->
     (String.length r < String.length s)%nat).
Proof.
  induction fuel as [|fuel [IHv IHe]]; [done|]. split.
  - intros s v r. cbn [JSON.parse_value].
    pose proof (skip_ws_length s) as Hws.
    destruct (strip_prefix "null" (JSON.skip_ws s)) as [r0|] eqn:E0.
    { intros [= _ <-]. apply strip_prefix_length in E0. simpl in E0. lia. }
    destruct (strip_prefix "true" (JSON.skip_ws s)) as [r1|] eqn:E1.
    { intros [= _ <-]. apply strip_prefix_length in E1. simpl in E1. lia. }
    destruct (strip_prefix "false" (JSON.skip_ws s)) as [r2|] eqn:E2.
    { intros [= _ <-]. apply strip_prefix_length in E2. simpl in E2. lia. }
    destruct (strip_prefix "[" (JSON.skip_ws s)) as [r3|] eqn:E3.
    + apply strip_prefix_length in E3. simpl in E3.
      pose proof (skip_ws_length r3) as Hws3.
      destruct (strip_prefix "]" (JSON.skip_ws r3)) as [r4|] eqn:E4.
      * intros [= _ <-]. apply strip_prefix_length in E4. simpl in E4. lia.
      * intros Hp. apply parsed_map_inv in Hp as (vs & Hp & _).
        apply IHe in Hp. lia.
    + intros Hp. apply parsed_map_inv in Hp as (n & Hp & _).
      apply parse_number_length in Hp. lia.
  - intros s vs r. cbn [JSON.parse_elements].
    destruct (JSON.parse_value fuel s) as [v r0| |] eqn:Ev; [|done..].
    apply IHv in Ev. pose proof (skip_ws_length r0) as Hws.
    destruct (strip_prefix "," (JSON.skip_ws r0)) as [r1|] eqn:E1.
    + apply strip_prefix_length in E1. simpl in E1.
      intros Hp. apply parsed_map_inv in Hp as (vs' & Hp & _).
      apply IHe in Hp. lia.
    + destruct (strip_prefix "]" (JSON.skip_ws r0)) as [r2|] eqn:E2; [|done].
      intros [= _ <-]. apply strip_prefix_length in E2. simpl in E2. lia.
Qed.

Lemma parsed_map_fuel {A B : Type} (f : A -> B) (p : JSON.parsed A) :
  p <> JSON.OutOfFuel -> JSON.parsed_map f p <> JSON.OutOfFuel.
Proof. by destruct p. Qed.

Lemma parse_number_fuel s : JSON.parse_number s <> JSON.OutOfFuel.
Proof.
  assert (Hu : forall t, JSON.parse_unsigned t <> JSON.OutOfFuel).
  { intros [|c t]; simpl; [done|].
    destruct (Ascii.eqb c "0"); [done|].
    destruct (is_digit c); [|done]. by destruct (span_digits _). }
  unfold JSON.parse_number. destruct (strip_prefix "-" s); [|done].
  by apply parsed_map_fuel.
Qed.

(** The parser never runs out of fuel that exceeds twice the length of
    its input. *)
Lemma parse_fuel (fuel : nat) :
  (forall s, (2 * String.length s < fuel)%nat ->
     JSON.parse_value fuel s <> JSON.OutOfFuel) /\
  (forall s, (2 * String.length s + 1 < fuel)%nat ->
     JSON.parse_elements fuel s <> JSON.OutOfFuel).
Proof.
  induction fuel as [|fuel [IHv IHe]]; [split; intros; lia|]. split.
  - intros s Hs. cbn [JSON.parse_value].
    pose proof (skip_ws_length s) as Hws.
    destruct (strip_prefix "null" _); [done|].
    destruct (strip_prefix "true" _); [done|].
    destruct (strip_prefix "false" _); [done|].
    destruct (strip_prefix "[" (JSON.skip_ws s)) as [r|] eqn:E.
    + apply strip_prefix_length in E. simpl in E.
      destruct (strip_prefix "]" _); [done|].
      apply parsed_map_fuel, IHe. lia.
    + apply parsed_map_fuel, parse_number_fuel.
  - intros s Hs. cbn [JSON.parse_elements].
    destruct (JSON.parse_value fuel s) as [v r| |] eqn:Ev; [|done|].
    + apply (proj1 (parse_length fuel)) in Ev.
      pose proof (skip_ws_length r) as Hws.
      destruct (strip_prefix "," (JSON.skip_ws r)) as [r'|] eqn:E.
      * apply strip_prefix_length in E. simpl in E.
        apply parsed_map_fuel, IHe. lia.
      * by destruct (strip_prefix "]" _).
    + exfalso. revert Ev. apply IHv. lia.
Qed.

Lemma parse_value_enough s :
  JSON.parse_value (JSON.enough_fuel s) s <> JSON.OutOfFuel.
Proof. apply parse_fuel. unfold JSON.enough_fuel. lia. Qed.

(** Induction on JSON values, with the elements of an array covered. *)
Lemma value_ind_nested (P : JSON.value -> Prop) :
  P JSON.Null ->
  (forall b, P (JSON.Bool b)) ->
  (forall n, P (JSON.Number n)) ->
  (forall l, Forall P l -> P (JSON.Array l)) ->
  forall v, P v.
Proof.
  intros HN HB HZ HA. fix IH 1. intros [| b | n | l].
  - exact HN.
  - apply HB.
  - apply HZ.
  - apply HA. induction l as [|v l IHl]; constructor; [apply IH|exact IHl].
Qed.

Lemma nonzero_digit_start d :
  match d with Nil | D0 _ => False | _ => True end ->
  match NilEmpty.string_of_uint d with
  | EmptyString => False
  | String c _ => is_digit c = true /\ Ascii.eqb c "0" = false
  end.
Proof. destruct d; simpl; done. Qed.

Lemma parse_unsigned_pos p rest :
  no_digit_ahead rest ->
  JSON.parse_unsigned (NilEmpty.string_of_uint (Pos.to_uint p) +:+ rest)
  = JSON.Parsed (Z.pos p) rest.
Proof.
  intros Hrest.
  pose proof (nonzero_digit_start _ (pos_to_uint_head p)) as Hhead.
  pose proof (span_digits_app _ rest (string_of_uint_digits (Pos.to_uint p)) Hrest) as Hspan.
  pose proof (digits_value_pos p) as Hval.
  destruct (NilEmpty.string_of_uint (Pos.to_uint p)) as [|c ds]; [done|].
  destruct Hhead as [Hc Hc0]. unfold JSON.parse_unsigned.
  cbn [String.append] in *. rewrite Hc0, Hc, Hspan, Hval. done.
Qed.

Lemma integer_to_string_cases n :
  match n with
  | 0 => integer_to_string n = "0"
  | Z.pos p => integer_to_string n = NilEmpty.string_of_uint (Pos.to_uint p)
  | Z.neg p =>
      integer_to_string n = "-" +:+ NilEmpty.string_of_uint (Pos.to_uint p)
  end.
Proof.
  destruct n as [|p|p]; [done| |]; unfold integer_to_string; simpl;
    unfold NilZero.string_of_uint;
    pose proof (DecimalPos.Unsigned.to_uint_nonnil p);
    by destruct (Pos.to_uint p).
Qed.

Lemma integer_to_string_start n : number_start (integer_to_string n).
Proof.
  pose proof (integer_to_string_cases n) as Hn.
  destruct n as [|p|p]; rewrite Hn.
  - right. reflexivity.
  - pose proof (nonzero_digit_start _ (pos_to_uint_head p)) as Hhead.
    destruct (NilEmpty.string_of_uint _); [done|]. right. apply Hhead.
  - left. reflexivity.
Qed.

Lemma parse_number_print n rest :
  no_digit_ahead rest ->
  JSON.parse_number (integer_to_string n +:+ rest) = JSON.Parsed n rest.
Proof.
  intros Hrest. pose proof (integer_to_string_cases n) as Hn.
  destruct n as [|p|p]; rewrite Hn.
  - reflexivity.
  - unfold JSON.parse_number.
    pose proof (nonzero_digit_start _ (pos_to_uint_head p)) as Hhead.
    pose proof (parse_unsigned_pos p rest Hrest) as Hp.
    destruct (NilEmpty.string_of_uint (Pos.to_uint p)) as [|c ds] eqn:E; [done|].
    destruct Hhead as [Hc _].
    cbn [String.append strip_prefix] in *.
    destruct (Ascii.eqb_spec "-" c) as [<-|_]; [done|].
    exact Hp.
  - unfold JSON.parse_number. rewrite string_app_assoc.
    cbn [String.append strip_prefix]. rewrite Ascii.eqb_refl.
    rewrite parse_unsigned_pos by done. reflexivity.
Qed.

(** The first character of a printed value: it is neither white space nor
    a comma nor a closing bracket, and it decides which value follows. *)
Lemma number_start_app s rest :
  number_start s ->
  JSON.skip_ws (s +:+ rest) = s +:+ rest /\
  strip_prefix "null" (s +:+ rest) = None /\
  strip_prefix "true" (s +:+ rest) = None /\
  strip_prefix "false" (s +:+ rest) = None /\
  strip_prefix "[" (s +:+ rest) = None /\
  strip_prefix "]" (s +:+ rest) = None.
Proof.
  destruct s as [|c s]; [done|]. intros [->|Hc]; [by repeat split|].
  cbn [String.append JSON.skip_ws strip_prefix].
  destruct c as [[] [] [] [] [] [] [] []]; try discriminate Hc; by repeat split.
Qed.

Lemma value_start v rest :
  JSON.skip_ws (JSON.stringify v +:+ rest) = JSON.stringify v +:+ rest /\
  strip_prefix "]" (JSON.stringify v +:+ rest) = None.
Proof.
  destruct v as [|[]|n|l]; try by split.
  pose proof (number_start_app _ rest (integer_to_string_start n)) as H.
  split; apply H.
Qed.

Lemma after_element_comma s :
  JSON.skip_ws ("," +:+ s) = "," +:+ s /\ strip_prefix "," ("," +:+ s) = Some s.
Proof. by split. Qed.

Lemma after_open_bracket s :
  JSON.skip_ws ("[" +:+ s) = "[" +:+ s /\
  strip_prefix "null" ("[" +:+ s) = None /\
  strip_prefix "true" ("[" +:+ s) = None /\
  strip_prefix "false" ("[" +:+ s) = None /\
  strip_prefix "[" ("[" +:+ s) = Some s.
Proof. by repeat split. Qed.

Lemma parse_elements_print l :
  Forall JSON.prints_back l -> l <> [] ->
  forall rest fuel,
    (2 * String.length (String.concat "," (map JSON.stringify l)
                         +:+ "]" +:+ rest) + 1 < fuel)%nat ->
    JSON.parse_elements fuel
      (String.concat "," (map JSON.stringify l) +:+ "]" +:+ rest)
    = JSON.Parsed l rest.
Proof.
  induction 1 as [|v l Hv Hl IH]; [done|]. intros _ rest fuel Hfuel.
  destruct fuel as [|fuel]; [lia|]. cbn [JSON.parse_elements].
  destruct l as [|v' l].
  - cbn [map String.concat] in *.
    rewrite Hv; [|done|lia]. reflexivity.
  - change (String.concat "," (map JSON.stringify (v :: v' :: l)))
      with (JSON.stringify v +:+ "," +:+
            String.concat "," (map JSON.stringify (v' :: l))) in *.
    rewrite !string_app_assoc in *.
    rewrite Hv; [|done|lia].
    destruct (after_element_comma
      (String.concat "," (map JSON.stringify (v' :: l)) +:+ "]" +:+ rest))
      as [-> ->].
    rewrite IH; [done|done|].
    rewrite !string_app_length in *. simpl String.length in *. lia.
Qed.

Lemma parse_value_print v : JSON.prints_back v.
Proof.
  induction v as [|b|n|l IH] using value_ind_nested;
    intros rest fuel Hrest Hfuel; (destruct fuel as [|fuel]; [lia|]).
  - reflexivity.
  - by destruct b.
  - cbn [JSON.parse_value JSON.stringify].
    destruct (number_start_app _ rest (integer_to_string_start n))
      as (-> & -> & -> & -> & -> & _).
    by rewrite parse_number_print.
  - cbn [JSON.stringify] in *. rewrite !string_app_assoc in *.
    cbn [JSON.parse_value].
    destruct (after_open_bracket
      (String.concat "," (map JSON.stringify l) +:+ "]" +:+ rest))
      as (-> & -> & -> & -> & ->).
    destruct l as [|v l].
    + reflexivity.
    + assert (Hne : v :: l <> []) by done.
      assert (Hstart :
        JSON.skip_ws (String.concat "," (map JSON.stringify (v :: l))
                      +:+ "]" +:+ rest)
        = String.concat "," (map JSON.stringify (v :: l)) +:+ "]" +:+ rest /\
        strip_prefix "]" (String.concat "," (map JSON.stringify (v :: l))
                          +:+ "]" +:+ rest) = None).
      { destruct l as [|v' l].
        - apply value_start.
        - change (String.concat "," (map JSON.stringify (v :: v' :: l)))
            with (JSON.stringify v +:+ "," +:+
                  String.concat "," (map JSON.stringify (v' :: l))).
          rewrite !string_app_assoc. apply value_start. }
      destruct Hstart as [-> ->].
      rewrite parse_elements_print; [done|done|done|].
      rewrite !string_app_length in *. simpl String.length in *. lia.
Qed.

Lemma parse_stringify v : JSON.parse (JSON.stringify v) = Normal v.
Proof.
  unfold JSON.parse.
  assert (E : JSON.stringify v = JSON.stringify v +:+ "").
  { clear. induction (JSON.stringify v) as [|c s IH]; simpl; [done|].
    by rewrite <- IH. }
  rewrite E at 2. rewrite parse_value_print; [done|done|].
  rewrite <- E. unfold JSON.enough_fuel. lia.
Qed.

Lemma stringify_nonempty v : String.eqb (JSON.stringify v) "" = false.
Proof.
  destruct v as [|[]|n|l]; try done.
  pose proof (integer_to_string_start n) as Hn. cbn [JSON.stringify].
  by destruct (integer_to_string n).
Qed.

Import Storage.

(** What the hook writes for a value, the next initial load reads back. *)
Lemma useLocalStorage_round_trip key v initialValue (st : gmap string string) :
  useLocalStorage_init key initialValue (useLocalStorage_effect key v st)
  = Normal v.
Proof.
  unfold useLocalStorage_init, useLocalStorage_effect, getItem, setItem.
  rewrite lookup_insert_eq. unfold or_else. rewrite stringify_nonempty.
  apply parse_stringify.
Qed.

(** C10. For every list of bookmark ids, [JSON.parse] reads the text that
    [JSON.stringify] writes back as the same array, and so does the initial
    load of [useLocalStorage] from a storage the hook's effect wrote to,
    whatever the storage held before and whatever the initial value is. *)
Theorem C10_bookmarks_round_trip (ids : list Z) (key : string)
    (initialValue : JSON.value) (st : gmap string string) :
  JSON.parse (JSON.stringify (bookmarkedIds ids)) = Normal (bookmarkedIds ids) /\
  useLocalStorage_init key initialValue
    (useLocalStorage_effect key (bookmarkedIds ids) st)
  = Normal (bookmarkedIds ids).
Proof. split; [apply parse_stringify|apply useLocalStorage_round_trip]. Qed.

Example C10_fixture :
  JSON.stringify (bookmarkedIds [7; 42; 7; -3; 0]) = "[7,42,7,-3,0]" /\
  useLocalStorage_effect "bookmarkedIds" (bookmarkedIds [7; 42]) ∅
    !! "bookmarkedIds" = Some "[7,42]" /\
  JSON.parse " [ 7 , 42 ] " = Normal (bookmarkedIds [7; 42]).
Proof. repeat split. Qed.

Lemma useLocalStorage_init_absent key initialValue (st : gmap string string) :
  getItem key st = None \/ getItem key st = Some "" ->
  useLocalStorage_init key initialValue st = Normal initialValue.
Proof.
  unfold useLocalStorage_init.
  intros [-> | ->]; simpl; apply parse_stringify.
Qed.

Lemma useLocalStorage_init_present key initialValue (st : gmap string string) s :
  getItem key st = Some s -> s <> "" ->
  useLocalStorage_init key initialValue st = JSON.parse s.
Proof.
  unfold useLocalStorage_init. intros -> Hs. simpl.
  apply String.eqb_neq in Hs. by rewrite Hs.
Qed.

(** C5, as the code has it.  When nothing (or the empty string) is stored
    under the key, the bookmark store starts as the empty array and nothing
    is thrown; a stored non-empty text is handed to [JSON.parse] as it is,
    so a text that is not valid JSON makes the initializer throw. *)
Theorem C5_initial_load (key : string) (st : gmap string string) :
  (getItem key st = None \/ getItem key st = Some "" ->
     useLocalStorage_init key (bookmarkedIds []) st = Normal (bookmarkedIds [])) /\
  (forall s, getItem key st = Some s -> s <> "" ->
     useLocalStorage_init key (bookmarkedIds []) st = JSON.parse s) /\
  (forall s e, getItem key st = Some s -> s <> "" -> JSON.parse s = Throw e ->
     useLocalStorage_init key (bookmarkedIds []) st = Throw e).
Proof.
  split; [apply useLocalStorage_init_absent|]. split.
  - intros s. apply useLocalStorage_init_present.
  - intros s e Hs Hne He. rewrite <- He.
    by apply useLocalStorage_init_present.
Qed.

(** C5 as stated fails: with the truncated text "[1," stored under the
    key, which is not valid JSON, the initializer throws instead of
    starting from the empty array. *)
Lemma C5_counterexample :
  ~ (forall (key : string) (st : gmap string string),
       (getItem key st = None \/
        exists s e, getItem key st = Some s /\ JSON.parse s = Throw e) ->
       useLocalStorage_init key (bookmarkedIds []) st
       = Normal (bookmarkedIds [])).
Proof.
  intros H.
  specialize (H "bookmarkedIds" {["bookmarkedIds" := "[1,"]}).
  assert (Hthrow :
    useLocalStorage_init "bookmarkedIds" (bookmarkedIds [])
      {["bookmarkedIds" := "[1,"]} = Throw JSON.syntax_error).
  { unfold useLocalStorage_init, getItem. rewrite lookup_singleton_eq.
    reflexivity. }
  rewrite Hthrow in H. discriminate H.
  right. exists "[1,", JSON.syntax_error. split; [|reflexivity].
  unfold getItem. apply lookup_singleton_eq.
Qed.

(** ** Queries and error handling *)

Import Hooks.

Lemma fetchJobItem_not_ok fetch id res body :
  fetch (GetJobItem id) = Normal res -> ok res = false ->
  json res = Normal body ->
  fetchJobItem fetch id = Throw (new_Error (description body)).
Proof. unfold fetchJobItem. intros -> Hok Hjson. simpl. by rewrite Hok, Hjson. Qed.

Lemma fetchJobItems_not_ok fetch searchText res body :
  fetch (SearchJobItems searchText) = Normal res -> ok res = false ->
  json res = Normal body ->
  fetchJobItems fetch searchText = Throw (new_Error (description body)).
Proof. unfold fetchJobItems. intros -> Hok Hjson. simpl. by rewrite Hok, Hjson. Qed.

Lemma handleError_Error name message toasts :
  handleError (ErrorObject name message) toasts = toasts ++ [""].
Proof. reflexivity. Qed.

(** C6. A response that is not ok makes either fetch function throw an
    [Error] whose message is the [description] of the error body (the
    empty string when the body has none), and the failure adds exactly one
    notification; but for every [Error], whatever its message, the text
    [handleError] gives to [toast.error] is the empty string.  So for the
    body [{description: "Job not found"}] the notification is empty. *)
Theorem C6_error_message_dropped :
  (forall fetch id res body,
     fetch (GetJobItem id) = Normal res -> ok res = false ->
     json res = Normal body ->
     fetchJobItem fetch id
     = Throw (ErrorObject "Error" (default "" (description body)))) /\
  (forall fetch searchText res body,
     fetch (SearchJobItems searchText) = Normal res -> ok res = false ->
     json res = Normal body ->
     fetchJobItems fetch searchText
     = Throw (ErrorObject "Error" (default "" (description body)))) /\
  (forall e toasts, length (handleError e toasts) = S (length toasts)) /\
  (forall name message toasts,
     handleError (ErrorObject name message) toasts = toasts ++ [""]) /\
  (let body := {| description := Some "Job not found";
                  jobItem := None; jobItems := None |} in
   let fetch := fun _ => Normal {| ok := false; json := Normal body |} in
   fetchJobItem fetch (Number.of_Z 5)
     = Throw (ErrorObject "Error" "Job not found") /\
   query_outcome (fetchJobItem fetch (Number.of_Z 5)) [] = [""]).
Proof.
  split; [intros; by eapply fetchJobItem_not_ok|].
  split; [intros; by eapply fetchJobItems_not_ok|].
  split; [|split; [reflexivity|by split]].
  intros e toasts. unfold handleError. rewrite length_app. simpl. lia.
Qed.

Lemma empty_text_idle_init : empty_text_idle Query.empty.
Proof.
  split; [apply lookup_empty|]. split; [apply not_elem_of_empty|].
  apply not_elem_of_nil.
Qed.

Lemma useSearchQuery_client t c :
  fst (useSearchQuery t c) = Query.observe t (Boolean_string t) c.
Proof. reflexivity. Qed.

Lemma empty_text_idle_step c e :
  empty_text_idle c -> empty_text_idle (search_step c e).
Proof.
  intros (Hc & Hi & Hf). destruct e as [t|t body|t]; cbn [search_step].
  - rewrite useSearchQuery_client. unfold Query.observe, Query.must_fetch.
    destruct (String.eqb_spec t "") as [->|Ht].
    + done.
    + unfold Boolean_string. apply String.eqb_neq in Ht as Ht'. rewrite Ht'.
      simpl. destruct (bool_decide _ && bool_decide _); [|done].
      split; [done|]. split; simpl.
      { apply not_elem_of_union. split; [|done].
        apply not_elem_of_singleton. by intros <-. }
      intros [?|Hin]%elem_of_app; [done|].
      apply list_elem_of_singleton in Hin. by subst t.
  - unfold Query.resolve. case_bool_decide as Hin; [|done].
    split; simpl.
    + rewrite lookup_insert_ne; [done|]. by intros ->.
    + split; [|done]. by intros [? _]%elem_of_difference.
  - split; [done|]. split; [|done]. simpl.
    by intros [? _]%elem_of_difference.
Qed.

Lemma empty_text_idle_run events c :
  empty_text_idle c -> empty_text_idle (fold_left search_step events c).
Proof.
  revert c. induction events as [|e events IH]; intros c Hc; simpl; [done|].
  by apply IH, empty_text_idle_step.
Qed.

(** C7. In every state the search query's client can reach (by renders
    with any search texts and by requests settling), rendering
    [useSearchQuery] with the empty string leaves the client as it is, so
    no producer is invoked, and returns [jobItems] undefined and
    [isLoading] false; no fetch for the empty string was ever made. *)
Theorem C7_empty_search_disabled (events : list search_event) :
  let c := fold_left search_step events Query.empty in
  useSearchQuery "" c
    = (c, {| result_jobItems := None; isLoading := false |}) /\
  Query.fetches (fst (useSearchQuery "" c)) = Query.fetches c /\
  ("" ∉ Query.fetches c).
Proof.
  intros c.
  destruct (empty_text_idle_run events Query.empty empty_text_idle_init)
    as (Hc & Hi & Hf). fold c in Hc, Hi, Hf.
  assert (E : useSearchQuery "" c
              = (c, {| result_jobItems := None; isLoading := false |})).
  { unfold useSearchQuery, Query.useQuery, Query.observe, Query.must_fetch.
    simpl. rewrite Hc. simpl. by rewrite bool_decide_eq_false_2. }
  rewrite E. done.
Qed.

Example C7_fixture :
  let body := {| description := None; jobItem := None; jobItems := Some [] |} in
  let c := fold_left search_step
             [Render ""; Render "react"; Resolved "react" body; Render ""]
             Query.empty in
  Query.fetches c = ["react"] /\
  snd (useSearchQuery "react" c)
    = {| result_jobItems := Some []; isLoading := false |} /\
  snd (useSearchQuery "vue" c)
    = {| result_jobItems := None; isLoading := true |} /\
  snd (useSearchQuery "" c)
    = {| result_jobItems := None; isLoading := false |}.
Proof. repeat split. Qed.

(** ** The active id *)

Import Number ActiveId.

Lemma string_app_nil_r (s : string) : s +:+ "" = s.
Proof. induction s as [|c s IH]; simpl; [done|]. by rewrite IH. Qed.

(** What a decimal digit is not. *)
Lemma digit_char c :
  is_digit c = true ->
  is_str_ws c = false /\
  Ascii.eqb "x" c = false /\ Ascii.eqb "X" c = false /\
  Ascii.eqb "o" c = false /\ Ascii.eqb "O" c = false /\
  Ascii.eqb "b" c = false /\ Ascii.eqb "B" c = false /\
  Ascii.eqb "-" c = false /\ Ascii.eqb "+" c = false /\
  Ascii.eqb "I" c = false.
Proof.
  destruct c as [[] [] [] [] [] [] [] []]; intros Hc; try discriminate Hc;
    by repeat split.
Qed.

Lemma all_digits_cons c s :
  all_digits (String c s) -> is_digit c = true /\ all_digits s.
Proof.
  intros H. split; [apply H; simpl; auto|].
  intros c' Hc'. apply H. simpl. auto.
Qed.

Lemma trim_start_digits ds : all_digits ds -> trim_start ds = ds.
Proof.
  destruct ds as [|c s]; [done|]. intros [Hc _]%all_digits_cons.
  apply digit_char in Hc as [Hws _]. simpl. by rewrite Hws.
Qed.

Lemma trim_end_digits ds : all_digits ds -> trim_end ds = ds.
Proof.
  induction ds as [|c s IH]; [done|]. intros [Hc Hs]%all_digits_cons.
  apply digit_char in Hc as [Hws _]. cbn [trim_end].
  rewrite Hws, IH by done. reflexivity.
Qed.

Lemma digits_no_prefix ds :
  all_digits ds ->
  strip_prefix "0x" ds = None /\ strip_prefix "0X" ds = None /\
  strip_prefix "0o" ds = None /\ strip_prefix "0O" ds = None /\
  strip_prefix "0b" ds = None /\ strip_prefix "0B" ds = None /\
  strip_prefix "-" ds = None /\ strip_prefix "+" ds = None /\
  String.eqb ds "Infinity" = false.
Proof.
  intros Hds. destruct ds as [|c s]; [by repeat split|].
  apply all_digits_cons in Hds as [Hc Hs].
  apply digit_char in Hc as (_ & _ & _ & _ & _ & _ & _ & Hm & Hp & HI).
  assert (Hinf : String.eqb (String c s) "Infinity" = false).
  { apply String.eqb_neq. intros [= -> _]. discriminate HI. }
  cbn [strip_prefix]. rewrite Hm, Hp.
  destruct s as [|c' s]; [by destruct (Ascii.eqb "0" c)|].
  apply all_digits_cons in Hs as [Hc' _].
  apply digit_char in Hc' as (_ & -> & -> & -> & -> & -> & -> & _).
  by destruct (Ascii.eqb "0" c).
Qed.

Lemma neg_of_Z n : neg (of_Z n) = of_Z (- n).
Proof.
  unfold neg, of_Z. f_equal. apply Qc_is_canon.
  cbn [Qcopp Q2Qc this]. rewrite !Qred_correct.
  unfold Qeq, Qopp, inject_Z. simpl. lia.
Qed.

(** Rounding depends on the value only, not on how the rational is
    written. *)
Lemma binary64_Qeq p q : (p == q)%Q -> binary64 p = binary64 q.
Proof. intros E. unfold binary64. by rewrite (Qred_complete p q E). Qed.

Lemma round_half_even_integer a : round_half_even a 1 = a.
Proof.
  unfold round_half_even. rewrite Z.mod_1_r, Z.div_1_r. reflexivity.
Qed.

(** Integers below [2^53] are binary64 values. *)
Lemma binary64_pos_below a :
  0 < a < 2 ^ 53 -> binary64_pos a 1 = of_Z a.
Proof.
  intros Ha. unfold binary64_pos, log2_floor.
  pose proof (Z.log2_nonneg a) as Hl0.
  assert (Hl : Z.log2 a < 53) by (apply Z.log2_lt_pow2; lia).
  pose proof (Z.log2_spec a ltac:(lia)) as [Hlo _].
  change (Z.log2 1) with 0. rewrite Z.sub_0_r.
  destruct (Z.leb_spec 0 (Z.log2 a)) as [_|?]; [|lia].
  destruct (Z.leb_spec (2 ^ Z.log2 a * 1) a) as [_|?]; [|lia].
  rewrite Z.max_l by lia.
  destruct (Z.ltb_spec 0 (Z.log2 a - 52)) as [?|_]; [lia|].
  rewrite round_half_even_integer. unfold of_Z. f_equal.
  apply Qc_is_canon. cbn [Q2Qc this]. rewrite !Qred_correct.
  set (k := - (Z.log2 a - 52)).
  assert (Hk : 0 < 2 ^ k) by (apply Z.pow_pos_nonneg; lia).
  unfold Qeq, inject_Z. cbn [Qnum Qden]. rewrite Z2Pos.id by done. lia.
Qed.

Lemma binary64_pos_top : binary64_pos (2 ^ 53) 1 = of_Z (2 ^ 53).
Proof.
  unfold of_Z.
  change (binary64_pos (2 ^ 53) 1)
    with (Num (Q2Qc (inject_Z (2 ^ 52 * 2 ^ 1)))).
  reflexivity.
Qed.

Lemma binary64_pos_exact a :
  0 < a <= 2 ^ 53 -> binary64_pos a 1 = of_Z a.
Proof.
  intros Ha. destruct (Z.eq_dec a (2 ^ 53)) as [->|Hne].
  - apply binary64_pos_top.
  - apply binary64_pos_below. lia.
Qed.

(** An integer of at most [2^53] in absolute value is its own Number
    value. *)
Lemma binary64_exact n q :
  exact_integer n -> (q == inject_Z n)%Q -> binary64 q = of_Z n.
Proof.
  unfold exact_integer. intros Hn Hq.
  rewrite (binary64_Qeq q (inject_Z n) Hq). unfold binary64.
  assert (E : Qred (inject_Z n) = inject_Z n).
  { apply Qred_identity. apply Z.gcd_1_r. }
  rewrite E. cbn [Qnum Qden inject_Z]. destruct n as [|p|p].
  - reflexivity.
  - apply binary64_pos_exact. lia.
  - cbn [Z.opp]. rewrite binary64_pos_exact by lia. apply neg_of_Z.
Qed.

Lemma unsigned_decimal_digits ds :
  all_digits ds -> ds <> "" ->
  unsigned_decimal ds = binary64 (inject_Z (Z.of_N (digits_value ds))).
Proof.
  intros Hds Hne. unfold unsigned_decimal.
  destruct (digits_no_prefix ds Hds) as (_ & _ & _ & _ & _ & _ & _ & _ & ->).
  pose proof (span_digits_app ds "" Hds I) as Hspan.
  rewrite string_app_nil_r in Hspan. rewrite Hspan.
  cbn [strip_prefix].
  apply String.eqb_neq in Hne. rewrite Hne.
  cbn [andb exponent_part String.eqb]. apply binary64_Qeq.
  set (v := Z.of_N (digits_value ds)).
  unfold Qeq, Qmult, Qplus, Qdiv, Qinv, inject_Z. simpl. lia.
Qed.

Lemma to_number_digits ds :
  all_digits ds -> ds <> "" ->
  to_number ds = binary64 (inject_Z (Z.of_N (digits_value ds))) /\
  to_number ("-" +:+ ds)
  = neg (binary64 (inject_Z (Z.of_N (digits_value ds)))).
Proof.
  intros Hds Hne.
  destruct (digits_no_prefix ds Hds)
    as (Hx & HX & Ho & HO & Hb & HB & Hm & Hp & _).
  apply String.eqb_neq in Hne as Hne'.
  split; unfold to_number, trim.
  - rewrite trim_start_digits, trim_end_digits by done.
    rewrite Hne', Hx, HX, Ho, HO, Hb, HB. unfold split_sign.
    rewrite Hm, Hp. by apply unsigned_decimal_digits.
  - change (trim_start ("-" +:+ ds)) with ("-" +:+ ds).
    change (trim_end ("-" +:+ ds)) with (String "-" (trim_end ds)).
    rewrite trim_end_digits by done.
    change (String "-" ds) with ("-" +:+ ds).
    change (String.eqb ("-" +:+ ds) "") with false.
    change (strip_prefix "0x" ("-" +:+ ds)) with (@None string).
    change (strip_prefix "0X" ("-" +:+ ds)) with (@None string).
    change (strip_prefix "0o" ("-" +:+ ds)) with (@None string).
    change (strip_prefix "0O" ("-" +:+ ds)) with (@None string).
    change (strip_prefix "0b" ("-" +:+ ds)) with (@None string).
    change (strip_prefix "0B" ("-" +:+ ds)) with (@None string).
    unfold split_sign. rewrite strip_prefix_app.
    by rewrite unsigned_decimal_digits.
Qed.

(** The unary plus reads the decimal text of an integer that a number
    holds exactly as that integer. *)
Lemma to_number_integer n :
  exact_integer n -> to_number (integer_to_string n) = of_Z n.
Proof.
  intros Hn. pose proof (integer_to_string_cases n) as Hs.
  destruct n as [|p|p]; rewrite Hs.
  - destruct (to_number_digits "0") as [-> _]; [|done|reflexivity].
    intros c [<-|[]]. reflexivity.
  - pose proof (nonzero_digit_start _ (pos_to_uint_head p)) as Hhead.
    destruct (to_number_digits _ (string_of_uint_digits (Pos.to_uint p)))
      as [-> _].
    + intros E. by rewrite E in Hhead.
    + rewrite digits_value_pos. by apply binary64_exact.
  - pose proof (nonzero_digit_start _ (pos_to_uint_head p)) as Hhead.
    destruct (to_number_digits _ (string_of_uint_digits (Pos.to_uint p)))
      as [_ ->].
    + intros E. by rewrite E in Hhead.
    + rewrite digits_value_pos.
      rewrite (binary64_exact (Z.pos p)); [apply neg_of_Z| |done].
      unfold exact_integer in *. lia.
Qed.



(** Two numbers are equal when they denote the same value. *)
Lemma number_ext (x y : number) :
  match x, y with
  | Num p, Num q => this p = this q
  | NaN, NaN => True
  | Infinity a, Infinity b => a = b
  | _, _ => False
  end -> x = y.
Proof.
  destruct x as [p| |a], y as [q| |b]; try done.
  - intros E. f_equal. apply Qc_is_canon. by rewrite E.
  - by intros ->.
Qed.


Lemma useActiveId_integer n :
  exact_integer n ->
  useActiveId ["#" +:+ integer_to_string n] = Some (of_Z n).
Proof.
  intros Hn. unfold useActiveId, handleHashChange. simpl.
  by rewrite to_number_integer.
Qed.

Lemma useJobItem_disabled id c :
  Boolean id = false -> fst (useJobItem id c) = c.
Proof.
  intros Hid. unfold useJobItem, Query.useQuery, Query.observe, Query.must_fetch.
  by rewrite Hid.
Qed.

Lemma useJobItem_enabled id c :
  Boolean id = true -> Query.cache c !! id = None -> id ∉ Query.inflight c ->
  Query.fetches (fst (useJobItem id c)) = Query.fetches c ++ [id] /\
  snd (useJobItem id c)
    = {| result_jobItem := None; jobItem_isLoading := true |}.
Proof.
  intros Hid Hc Hi.
  unfold useJobItem, Query.useQuery, Query.observe, Query.must_fetch.
  rewrite Hid. rewrite !bool_decide_eq_true_2 by done. simpl.
  rewrite Hc. split; [done|]. f_equal.
  rewrite !bool_decide_eq_true_2; [done|done|].
  apply elem_of_union_l, elem_of_singleton. done.
Qed.


Example C8_fixture :
  useActiveId ["#7567890"] = Some (of_Z 7567890) /\
  useActiveId ["#abc"] = Some NaN /\
  useActiveId ["#12px"] = Some NaN /\
  useActiveId [""; "#123"; "#"] = Some (of_Z 0) /\
  useActiveId ["#9007199254740993"] = Some (of_Z 9007199254740992) /\
  useActiveId ["#1e-400"] = Some (of_Z 0) /\
  Query.fetches (fst (useJobItem (useActiveId ["#123"]) Query.empty))
    = [Some (of_Z 123)] /\
  Query.fetches (fst (useJobItem (useActiveId ["#abc"]) Query.empty)) = [] /\
  Query.fetches (fst (useJobItem (useActiveId ["#1e-400"]) Query.empty)) = [] /\
  Query.fetches (fst (useJobItem (useActiveId ["#0"]) Query.empty)) = [].
Proof.
  assert (E1 : useActiveId ["#9007199254740993"]
               = Some (of_Z 9007199254740992)).
  { unfold useActiveId, handleHashChange. cbn [fold_left].
    apply (f_equal Some). apply number_ext. vm_compute. reflexivity. }
  assert (E2 : useActiveId ["#1e-400"] = Some (of_Z 0)).
  { unfold useActiveId, handleHashChange. cbn [fold_left].
    apply (f_equal Some). apply number_ext. vm_compute. reflexivity. }
  assert (E3 : useActiveId ["#123"] = Some (of_Z 123)).
  { apply (useActiveId_integer 123). unfold exact_integer. simpl. lia. }
  split; [apply (useActiveId_integer 7567890); unfold exact_integer; simpl; lia|].
  split; [reflexivity|]. split; [reflexivity|]. split; [reflexivity|].
  split; [exact E1|]. split; [exact E2|].
  split; [rewrite E3; by apply useJobItem_enabled|].
  split; [reflexivity|]. split; [by rewrite E2|reflexivity].
Qed.


(** ** The debouncer *)

Section DebounceFacts.
Import Debounce.
Context {T : Type} `{EqDecision T}.
Variable delay : Z.
Hypothesis delay_nonneg : 0 <= delay.

Lemma advance_pending now (h : hook T) due v :
  timer h = Some (due, v) -> now < due -> advance now h = h.
Proof.
  intros Ht Hlt. unfold advance. rewrite Ht.
  destruct (Z.leb_spec due now); [lia|done].
Qed.

(** A render with a changed value leaves exactly one timer pending: its
    own; the one that was pending before is gone. *)
Lemma render_restarts_timer now v (h : hook T) :
  v <> value (advance now h) ->
  timer (render delay now v h) = Some (now + delay, v) /\
  value (render delay now v h) = v /\
  propagated (render delay now v h) = propagated (advance now h).
Proof.
  intros Hv. unfold render. rewrite decide_False by done.
  by rewrite Z.max_r.
Qed.

Lemma run_survivors (rest : list (Z * T)) :
  forall (t : Z) (v : T) (h : hook T) (horizon : Z),
  value h = v -> timer h = Some (t + delay, v) ->
  changes (t, v) rest ->
  propagated (advance horizon (run delay h rest))
  = propagated h ++ survivors delay ((t, v) :: rest) horizon.
Proof.
  induction rest as [|[t' v'] rest IH]; intros t v h horizon Hval Htimer Hch.
  - cbn [run fold_left survivors]. unfold advance. rewrite Htimer.
    destruct (t + delay <=? horizon); simpl; by rewrite ?app_nil_r.
  - destruct Hch as (Ht & Hv & Hch). cbn [fst snd] in Ht, Hv.
    cbn [run fold_left fst snd]. fold (run delay (render delay t' v' h) rest).
    assert (Hadv : value (advance t' h) = v).
    { unfold advance. rewrite Htimer. by destruct (t + delay <=? t'). }
    destruct (render_restarts_timer t' v' h) as (Htimer' & Hval' & Hlog).
    { by rewrite Hadv. }
    rewrite (IH t' v' _ horizon Hval' Htimer' Hch), Hlog.
    change (survivors delay ((t, v) :: (t', v') :: rest) horizon)
      with ((if t + delay <=? t' then [(t + delay, v)] else [])
            ++ survivors delay ((t', v') :: rest) horizon).
    rewrite app_assoc. f_equal.
    unfold advance. rewrite Htimer.
    destruct (t + delay <=? t'); simpl; by rewrite ?app_nil_r.
Qed.

(** During a burst nothing fires: the hook still shows the first value,
    and its one pending timer is the last input's. *)
Lemma run_burst (rest : list (Z * T)) : forall (t : Z) (v v0 : T),
  changes (t, v) rest -> burst delay (t, v) rest ->
  run delay {| value := v; debouncedValue := v0;
               timer := Some (t + delay, v); propagated := [] |} rest
  = {| value := snd (List.last rest (t, v)); debouncedValue := v0;
       timer := Some (fst (List.last rest (t, v)) + delay,
                      snd (List.last rest (t, v)));
       propagated := [] |}.
Proof.
  induction rest as [|[t' v'] rest IH]; intros t v v0 Hch Hb; [done|].
  destruct Hch as (Ht & Hv & Hch). destruct Hb as (Hlt & Hb).
  cbn [fst snd] in Ht, Hv, Hlt.
  cbn [run fold_left fst snd].
  set (h := {| value := v; debouncedValue := v0;
               timer := Some (t + delay, v); propagated := [] |}).
  assert (Hr : render delay t' v' h
               = {| value := v'; debouncedValue := v0;
                    timer := Some (t' + delay, v'); propagated := [] |}).
  { unfold render. rewrite (advance_pending t' h (t + delay) v) by done.
    rewrite decide_False by done. by rewrite Z.max_r. }
  rewrite Hr. fold (run delay {| value := v'; debouncedValue := v0;
    timer := Some (t' + delay, v'); propagated := [] |} rest).
  rewrite (IH t' v' v0 Hch Hb).
  replace (List.last ((t', v') :: rest) (t, v)) with (List.last rest (t', v'));
    [done|].
  clear. revert t' v'. induction rest as [|i rest IH]; intros t' v'; [done|].
  cbn [List.last]. destruct rest; [done|]. apply (IH t' v').
Qed.
End DebounceFacts.

(** C9. For a delay that is not negative and a timeline of input changes
    observed at a time not before the last of them:
    - a change always cancels the pending timer and leaves its own as the
      only one, due [delay] after the change;
    - the values handed to [setDebouncedValue] are those of the inputs not
      replaced before their delay had passed, each exactly [delay] after
      its input;
    - in a burst, where every change arrives while the previous timer is
      pending, nothing is propagated before [delay] has passed since the
      last input, and from then on exactly one value has been propagated:
      the last input, at its time plus [delay]. *)
Theorem C9_debounce {T : Type} `{EqDecision T} (delay : Z)
    (first : Z * T) (later : list (Z * T)) (horizon : Z) :
  0 <= delay -> Debounce.changes first later ->
  fst (List.last later first) <= horizon ->
  let final := List.last later first in
  let h := Debounce.observe delay first later horizon in
  (forall now v (h' : Debounce.hook T),
     v <> Debounce.value (Debounce.advance now h') ->
     Debounce.timer (Debounce.render delay now v h') = Some (now + delay, v)) /\
  Debounce.propagated h = Debounce.survivors delay (first :: later) horizon /\
  (Debounce.burst delay first later ->
     Debounce.propagated h
       = (if horizon <? fst final + delay then []
          else [(fst final + delay, snd final)]) /\
     Debounce.debouncedValue h
       = (if horizon <? fst final + delay then snd first else snd final)).
Proof.
  intros Hd Hch Hhor final h. destruct first as [t0 v0]. split; [|split].
  - intros now v h' Hv. by apply render_restarts_timer.
  - subst h. unfold Debounce.observe, Debounce.mount. cbn [fst snd].
    rewrite (Z.max_r 0 delay) by done.
    by rewrite (run_survivors delay Hd later t0 v0).
  - intros Hb. subst h. unfold Debounce.observe, Debounce.mount.
    cbn [fst snd]. rewrite (Z.max_r 0 delay) by done.
    rewrite (run_burst delay Hd later t0 v0 v0 Hch Hb).
    fold final. unfold Debounce.advance. cbn [Debounce.timer].
    destruct (Z.leb_spec (fst final + delay) horizon);
      destruct (Z.ltb_spec horizon (fst final + delay)); try lia; done.
Qed.

(** The scenario of the spec: inputs at 0, 10 and 20 ms with a delay of
    500 ms; seen at 1000 ms, one value was propagated, the last, at 520. *)
Lemma C9_debounce_witness :
  let h := Debounce.observe 500 (0, "r") [(10, "re"); (20, "rea")] 1000 in
  Debounce.propagated h = [(520, "rea")] /\
  Debounce.propagated
    (Debounce.observe 500 (0, "r") [(10, "re"); (20, "rea")] 519) = [] /\
  Debounce.debouncedValue h = "rea".
Proof.
  pose proof (C9_debounce 500 (0, "r") [(10, "re"); (20, "rea")] 1000) as H1.
  pose proof (C9_debounce 500 (0, "r") [(10, "re"); (20, "rea")] 519) as H2.
  cbv zeta in H1, H2.
  destruct H1 as (_ & _ & H1); [lia|by repeat split|simpl; lia|].
  destruct H2 as (_ & _ & H2); [lia|by repeat split|simpl; lia|].
  destruct H1 as [H1 H1']; [simpl; lia|].
  destruct H2 as [H2 _]; [simpl; lia|].
  split; [exact H1|]. split; [exact H2|exact H1'].
Defined.

(** * Further properties *)

Import Vocabulary.

(** ** Sorting *)

Section SortOrder.
Context {A : Type}.
Variable comparefn : A -> A -> Q.

(** Elements that the comparator does not order strictly keep their
    places relative to each other. *)
Lemma insert_filter (P : A -> Prop) `{!forall a, Decision (P a)} x l :
  (forall y, P x -> P y -> (comparefn x y <= 0)%Q) ->
  filter P (JSArray.insert comparefn x l) = filter P (x :: l).
Proof.
  intros Hxy. induction l as [|y l IH]; [done|]. cbn [JSArray.insert].
  destruct (Qle_bool (comparefn x y) 0) eqn:E; [done|].
  rewrite filter_cons, IH, !filter_cons.
  destruct (decide (P y)) as [Hy|Hy]; [|done].
  destruct (decide (P x)) as [Hx|Hx]; [|done].
  exfalso. pose proof (Hxy y Hx Hy) as Hle.
  apply Qle_bool_iff in Hle. congruence.
Qed.

Lemma sort_filter (P : A -> Prop) `{!forall a, Decision (P a)} l :
  (forall x y, P x -> P y -> (comparefn x y <= 0)%Q) ->
  filter P (JSArray.sort comparefn l) = filter P l.
Proof.
  intros Hxy. induction l as [|x l IH]; [done|]. cbn [JSArray.sort].
  rewrite insert_filter by (intros y; apply Hxy).
  by rewrite !filter_cons, IH.
Qed.

Lemma sort_sorted_id l :
  StronglySorted (JSArray.before comparefn) l -> JSArray.sort comparefn l = l.
Proof.
  induction 1 as [|x l Hl IH Hx]; [done|]. cbn [JSArray.sort]. rewrite IH.
  destruct Hx as [|y l Hxy _]; [done|]. cbn [JSArray.insert].
  apply Qle_bool_iff in Hxy. by rewrite Hxy.
Qed.
End SortOrder.

Lemma comparator_total sortBy a b :
  ~ JSArray.before (comparator sortBy) a b -> JSArray.before (comparator sortBy) b a.
Proof.
  unfold JSArray.before, comparator.
  destruct (String.eqb sortBy "relevant"); [lra|].
  destruct (String.eqb sortBy "recent"); [|lra].
  rewrite <- !(Zle_Qle _ 0). lia.
Qed.

Lemma comparator_trans sortBy a b c :
  JSArray.before (comparator sortBy) a b ->
  JSArray.before (comparator sortBy) b c ->
  JSArray.before (comparator sortBy) a c.
Proof.
  unfold JSArray.before, comparator.
  destruct (String.eqb sortBy "relevant"); [lra|].
  destruct (String.eqb sortBy "recent"); [|lra].
  rewrite <- !(Zle_Qle _ 0). lia.
Qed.

(** X1. Sorting is stable: under "relevant" the job items of any one
    relevance score, and under "recent" those of any one [daysAgo], stand
    in the sorted list in the order the job list had them. *)
Theorem sorting_keeps_ties_in_order (jobItems : option (list JobItem))
    (score : Q) (days : Z) :
  filter (fun a => (relevanceScore a == score)%Q)
         (jobItemsSorted "relevant" jobItems)
  = filter (fun a => (relevanceScore a == score)%Q) (default [] jobItems) /\
  filter (fun a => daysAgo a = days) (jobItemsSorted "recent" jobItems)
  = filter (fun a => daysAgo a = days) (default [] jobItems).
Proof.
  unfold jobItemsSorted. split; apply sort_filter; intros x y Hx Hy.
  - rewrite comparator_relevant, Hx, Hy. lra.
  - rewrite comparator_recent, Hx, Hy, Z.sub_diag. apply Qle_refl.
Qed.

(** X2. Sorting a list that is already sorted by the same [sortBy]
    changes nothing, whatever [sortBy] is. *)
Theorem sorting_twice_is_sorting_once (sortBy : string)
    (jobItems : option (list JobItem)) :
  jobItemsSorted sortBy (Some (jobItemsSorted sortBy jobItems))
  = jobItemsSorted sortBy jobItems.
Proof.
  unfold jobItemsSorted at 1. cbn [default].
  apply sort_sorted_id. unfold jobItemsSorted.
  apply sort_sorted; [apply comparator_total|apply comparator_trans].
Qed.

(** ** Paging at the edges *)

Lemma slice_nil {A : Type} (a b : Z) : JSArray.slice (@nil A) a b = [].
Proof. unfold JSArray.slice. by rewrite drop_nil, take_nil. Qed.

(** X3. While the search has no data ([jobItems] is undefined), and
    likewise for an empty result list, the page shown is empty in every
    state and for every page size, and the number of results is 0; for a
    page size other than 0 the number of pages is 0 as well. *)
Theorem no_results_no_page (RESULTS_PER_PAGE : Z)
    (jobItems : option (list JobItem)) (s : ListState) :
  jobItems = None \/ jobItems = Some [] ->
  page_view RESULTS_PER_PAGE jobItems s = [] /\
  totalNumberOfResults jobItems = 0 /\
  (RESULTS_PER_PAGE <> 0 ->
   (totalNumberOfPages RESULTS_PER_PAGE jobItems == 0)%Q).
Proof.
  intros [-> | ->]; (split; [apply slice_nil|]); (split; [done|]);
    intros HR; unfold totalNumberOfPages; simpl;
    unfold Qeq, Qdiv, Qmult; simpl; lia.
Qed.

Lemma no_results_no_page_witness :
  page_view 7 None
    (ViewState.run (ViewState.initial "") [ChangePage "next"; ChangePage "next"])
  = [] /\
  totalNumberOfResults None = 0 /\
  (7 <> 0 -> (totalNumberOfPages 7 None == 0)%Q).
Proof. apply no_results_no_page. by left. Defined.

(** X4. Below the first page the slice follows JavaScript's indices:
    page 0 is always empty, and a page [c <= -1] is read from the end of
    the list, as the window from [length + (c-1)*pageSize] to
    [length + c*pageSize] (each taken as 0 when negative); so it shows
    items exactly when the list is longer than [-c * pageSize]. *)
Theorem pages_below_the_first (RESULTS_PER_PAGE : Z) (sorted : list JobItem)
    (currentPage : Z) :
  0 < RESULTS_PER_PAGE ->
  let len := Z.of_nat (length sorted) in
  jobItemsSortedAndSliced RESULTS_PER_PAGE sorted 0 = [] /\
  (currentPage <= -1 ->
   jobItemsSortedAndSliced RESULTS_PER_PAGE sorted currentPage
   = window sorted
       (Z.to_nat (len + (currentPage - 1) * RESULTS_PER_PAGE))
       (Z.to_nat (len + currentPage * RESULTS_PER_PAGE)) /\
   (jobItemsSortedAndSliced RESULTS_PER_PAGE sorted currentPage <> []
    <-> - currentPage * RESULTS_PER_PAGE < len)).
Proof.
  intros HR len. split.
  - unfold jobItemsSortedAndSliced, JSArray.slice, JSArray.relative_index.
    fold len. destruct (Z.ltb_spec (0 * RESULTS_PER_PAGE - RESULTS_PER_PAGE) 0);
      [|lia].
    destruct (Z.ltb_spec (0 * RESULTS_PER_PAGE) 0); [lia|].
    replace (Z.to_nat _) with 0%nat by lia. apply take_0.
  - intros Hc.
    assert (E : jobItemsSortedAndSliced RESULTS_PER_PAGE sorted currentPage
      = window sorted
          (Z.to_nat (len + (currentPage - 1) * RESULTS_PER_PAGE))
          (Z.to_nat (len + currentPage * RESULTS_PER_PAGE))).
    { unfold jobItemsSortedAndSliced, JSArray.slice, JSArray.relative_index,
        window. fold len.
      destruct (Z.ltb_spec (currentPage * RESULTS_PER_PAGE - RESULTS_PER_PAGE) 0);
        [|nia].
      destruct (Z.ltb_spec (currentPage * RESULTS_PER_PAGE) 0); [|nia].
      f_equal; [|f_equal]; lia. }
    split; [exact E|]. rewrite E. unfold window.
    rewrite <- length_zero_iff_nil, length_take, length_drop. subst len. nia.
Qed.

Lemma pages_below_the_first_witness :
  let l := (fun i => mkJobItem i "t" "c" 0 i) <$> [1; 2; 3; 4; 5; 6; 7; 8; 9; 10] in
  let len := Z.of_nat (length l) in
  ViewState.id <$> jobItemsSortedAndSliced 7 l (-1) = [1; 2; 3] /\
  (jobItemsSortedAndSliced 7 l 0 = [] /\
   (-1 <= -1 ->
    jobItemsSortedAndSliced 7 l (-1)
    = window l (Z.to_nat (len + (-1 - 1) * 7)) (Z.to_nat (len + -1 * 7)) /\
    (jobItemsSortedAndSliced 7 l (-1) <> [] <-> - (-1) * 7 < len))).
Proof.
  intros l len. split; [reflexivity|].
  apply (pages_below_the_first 7 l (-1)). lia.
Defined.

(** X5. Whatever the page number and the page size, the page is a run of
    consecutive elements of the sorted list: nothing is added, repeated or
    reordered. *)
Theorem page_is_a_run_of_the_list (RESULTS_PER_PAGE : Z)
    (sorted : list JobItem) (currentPage : Z) :
  exists before after,
    sorted
    = before ++ jobItemsSortedAndSliced RESULTS_PER_PAGE sorted currentPage
             ++ after.
Proof.
  unfold jobItemsSortedAndSliced, JSArray.slice.
  set (n := Z.to_nat _). set (k := Z.to_nat _).
  exists (take k sorted), (drop n (drop k sorted)).
  by rewrite (take_drop n), (take_drop k).
Qed.

(** ** The provider's state over any history *)

Lemma run_without_sort_change (es : list event) (s : ListState) :
  Forall (fun e => ~ is_sort_change e) es ->
  sortBy (ViewState.run s es) = sortBy s /\
  currentPage (ViewState.run s es) = currentPage s + page_moves es.
Proof.
  revert s. induction es as [|e es IH]; intros s Hes.
  - simpl. split; [done|lia].
  - apply Forall_cons in Hes as [He Hes].
    cbn [ViewState.run fold_left]. fold (ViewState.run (step s e) es).
    destruct (IH (step s e) Hes) as [-> ->]. cbn [page_moves foldr].
    fold (page_moves es).
    destruct e as [d|v|t]; [|by destruct He|by split; [|simpl; lia]].
    cbn [step page_move]. unfold handleChangePage.
    destruct (String.eqb d "next"); [split; [done|simpl; lia]|].
    destruct (String.eqb d "previous"); split; try done; simpl; lia.
Qed.

(** X6. After any history of page changes, sort changes and new search
    texts, the state depends on the events before the last sort change
    only through the search text: [sortBy] is what that sort change set,
    and [currentPage] is 1 plus the page movements made since ("next"
    counts 1, "previous" counts -1, a new search text or another direction
    counts 0). *)
Theorem last_sort_change_decides (s : ListState) (before : list event)
    (newSortBy : string) (since : list event) :
  Forall (fun e => ~ is_sort_change e) since ->
  let s' := ViewState.run s (before ++ ChangeSortBy newSortBy :: since) in
  sortBy s' = newSortBy /\ currentPage s' = 1 + page_moves since.
Proof.
  intros Hsince s'. subst s'. unfold ViewState.run.
  rewrite fold_left_app. cbn [fold_left].
  set (s1 := step (fold_left step before s) (ChangeSortBy newSortBy)).
  destruct (run_without_sort_change since s1 Hsince) as [E1 E2].
  unfold ViewState.run in E1, E2. by rewrite E1, E2.
Qed.

Lemma last_sort_change_decides_witness :
  let s' := ViewState.run (ViewState.initial "react")
              ([ChangePage "next"; ChangePage "next"]
               ++ ChangeSortBy "recent"
               :: [ChangePage "next"; SearchText "vue"; ChangePage "previous";
                   ChangePage "next"]) in
  sortBy s' = "recent" /\ currentPage s' = 1 + 1.
Proof.
  apply (last_sort_change_decides (ViewState.initial "react")
           [ChangePage "next"; ChangePage "next"] "recent"
           [ChangePage "next"; SearchText "vue"; ChangePage "previous";
            ChangePage "next"]).
  repeat constructor; simpl; tauto.
Defined.

(** ** The persisted store *)

(** X7. [useLocalStorage] under one key does not disturb another: what the
    effect writes under [key] leaves the initial load under a different
    key as it was; and of two writes under the same key the later one is
    the one stored and loaded. *)
Theorem storage_keys_are_independent (key other : string)
    (v v' initialValue : JSON.value) (st : gmap string string) :
  key <> other ->
  useLocalStorage_init other initialValue (useLocalStorage_effect key v st)
  = useLocalStorage_init other initialValue st /\
  useLocalStorage_effect key v' (useLocalStorage_effect key v st)
  = useLocalStorage_effect key v' st /\
  useLocalStorage_init key initialValue
    (useLocalStorage_effect key v' (useLocalStorage_effect key v st))
  = Normal v'.
Proof.
  intros Hne. split; [|split].
  - unfold useLocalStorage_init, useLocalStorage_effect, getItem, setItem.
    by rewrite lookup_insert_ne.
  - unfold useLocalStorage_effect, setItem. apply insert_insert_eq.
  - apply useLocalStorage_round_trip.
Qed.

Lemma storage_keys_are_independent_witness :
  useLocalStorage_init "theme" (JSON.Bool false)
    (useLocalStorage_effect "bookmarkedIds" (bookmarkedIds [4; 2])
       {["theme" := "true"]})
  = Normal (JSON.Bool true) /\
  useLocalStorage_init "bookmarkedIds" (bookmarkedIds [])
    (useLocalStorage_effect "bookmarkedIds" (bookmarkedIds [4])
       (useLocalStorage_effect "bookmarkedIds" (bookmarkedIds [4; 2])
          {["theme" := "true"]}))
  = Normal (bookmarkedIds [4]).
Proof.
  destruct (storage_keys_are_independent "bookmarkedIds" "theme"
              (bookmarkedIds [4; 2]) (bookmarkedIds [4]) (JSON.Bool false)
              {["theme" := "true"]}) as (H1 & _ & _); [done|].
  destruct (storage_keys_are_independent "bookmarkedIds" "theme"
              (bookmarkedIds [4; 2]) (bookmarkedIds [4]) (bookmarkedIds [])
              {["theme" := "true"]}) as (_ & _ & H3); [done|].
  split; [rewrite H1; reflexivity|exact H3].
Defined.

(** ** The fetch functions *)

(** X8. [fetchJobItem] and [fetchJobItems] return data in one case only:
    the request resolved, the response is ok and its body parsed; the data
    is then that body.  A response that is not ok never yields data. *)
Theorem fetch_returns_data_only_from_ok
    (fetch : request -> completion Response) (id : number)
    (searchText : string) (data : ApiBody) :
  (fetchJobItem fetch id = Normal data <->
   exists res, fetch (GetJobItem id) = Normal res /\ ok res = true /\
               json res = Normal data) /\
  (fetchJobItems fetch searchText = Normal data <->
   exists res, fetch (SearchJobItems searchText) = Normal res /\
               ok res = true /\ json res = Normal data).
Proof.
  unfold fetchJobItem, fetchJobItems. split.
  - destruct (fetch (GetJobItem id)) as [res|e]; simpl.
    + destruct (ok res) eqn:Hok; simpl; destruct (json res) eqn:Hj; simpl;
        split; try done; try (intros [= <-]; by eauto);
        intros (res' & [= <-] & Hok' & Hj'); congruence.
    + split; [done|]. by intros (res & ? & _).
  - destruct (fetch (SearchJobItems searchText)) as [res|e]; simpl.
    + destruct (ok res) eqn:Hok; simpl; destruct (json res) eqn:Hj; simpl;
        split; try done; try (intros [= <-]; by eauto);
        intros (res' & [= <-] & Hok' & Hj'); congruence.
    + split; [done|]. by intros (res & ? & _).
Qed.

(** ** Queries over the shared client *)

Section ClientFacts.
Context {K : Type} `{Countable K} {V : Type}.
Implicit Types (c : Query.client K V) (k : K).

Lemma observe_cache k e c : Query.cache (Query.observe k e c) = Query.cache c.
Proof. unfold Query.observe. by destruct (Query.must_fetch k e c). Qed.

Lemma observe_settled k e c :
  Query.must_fetch k e (Query.observe k e c) = false.
Proof.
  unfold Query.observe. destruct (Query.must_fetch k e c) eqn:E; [|done].
  unfold Query.must_fetch. cbn [Query.cache Query.inflight].
  rewrite (bool_decide_eq_false_2 (k ∉ _)); [by rewrite andb_false_r|].
  intros Hk. apply Hk, elem_of_union_l, elem_of_singleton. done.
Qed.

Lemma useQuery_again k e c :
  Query.useQuery k e (fst (Query.useQuery k e c)) = Query.useQuery k e c.
Proof.
  unfold Query.useQuery. cbn [fst].
  assert (E : Query.observe k e (Query.observe k e c) = Query.observe k e c).
  { unfold Query.observe at 1. by rewrite observe_settled. }
  by rewrite E.
Qed.

Lemma useQuery_cached k e c v :
  Query.cache c !! k = Some v ->
  Query.useQuery k e c
  = (c, {| Query.data := Some v; Query.isInitialLoading := false |}).
Proof.
  intros Hc. unfold Query.useQuery, Query.observe, Query.must_fetch.
  rewrite Hc, (bool_decide_eq_false_2 (Some v = None)) by done.
  rewrite andb_false_r. cbn [andb]. by rewrite Hc, andb_false_r.
Qed.

(** What observing a list of keys does to the client. *)
Lemma observe_all (keys : list K) c :
  let c' := fold_left (fun c k => Query.observe k true c) keys c in
  Query.cache c' = Query.cache c /\
  exists new,
    Query.fetches c' = Query.fetches c ++ new /\
    NoDup new /\
    (forall k, k ∈ new <->
       k ∈ keys /\ Query.cache c !! k = None /\ k ∉ Query.inflight c) /\
    (forall k, k ∈ Query.inflight c' <-> k ∈ Query.inflight c \/ k ∈ new).
Proof.
  revert c. induction keys as [|k0 keys IH]; intros c; cbn [fold_left].
  - split; [done|]. exists []. rewrite app_nil_r.
    split; [done|]. split; [constructor|]. split.
    + intros k. rewrite !elem_of_nil. tauto.
    + intros k. rewrite elem_of_nil. tauto.
  - set (c1 := Query.observe k0 true c).
    destruct (IH c1) as (Hcache & new & Hf & Hnd & Hnew & Hin).
    assert (Hc1 : Query.cache c1 = Query.cache c) by apply observe_cache.
    rewrite Hc1 in Hcache, Hnew. split; [exact Hcache|].
    assert (Hcase :
      Query.must_fetch k0 true c = true /\
      Query.inflight c1 = {[k0]} ∪ Query.inflight c /\
      Query.fetches c1 = Query.fetches c ++ [k0]
      \/ Query.must_fetch k0 true c = false /\ c1 = c).
    { subst c1. unfold Query.observe.
      destruct (Query.must_fetch k0 true c); [left|right]; done. }
    destruct Hcase as [(E & Hi1 & Hf1)|(E & Hceq)].
    + unfold Query.must_fetch in E. cbn [andb] in E.
      apply andb_true_iff in E as [E1 E2].
      apply bool_decide_eq_true in E1, E2.
      rewrite Hf1 in Hf. rewrite Hi1 in Hnew, Hin.
      exists (k0 :: new). split; [by rewrite Hf, <- app_assoc|].
      split.
      { constructor; [|done]. intros Hk0. apply Hnew in Hk0 as (_ & _ & Hk0).
        apply Hk0, elem_of_union_l, elem_of_singleton. done. }
      split.
      * intros k. rewrite !elem_of_cons, Hnew, not_elem_of_union,
          not_elem_of_singleton.
        split.
        -- intros [->|(Hk & Hc & Hne & Hi)]; [by auto|by auto].
        -- intros ([->|Hk] & Hc & Hi); [by left|].
           destruct (decide (k = k0)) as [->|Hne]; [by left|right; auto].
      * intros k. rewrite Hin, elem_of_union, elem_of_singleton, elem_of_cons.
        tauto.
    + rewrite Hceq in Hf, Hnew, Hin |- *.
      exists new. split; [done|]. split; [done|]. split; [|done].
      intros k. rewrite Hnew, elem_of_cons. split; [tauto|].
      intros ([->|Hk] & Hc & Hi); [|done]. exfalso.
      unfold Query.must_fetch in E. cbn [andb] in E.
      rewrite !bool_decide_eq_true_2 in E by done. done.
Qed.
End ClientFacts.

(** X10. Rendering a query hook a second time, with nothing settled in
    between, makes no request and returns what the first render
    returned: re-renders do not fetch again. *)
Theorem rerender_fetches_nothing (searchText : string)
    (c : Query.client string ApiBody) (id : option number)
    (c' : Query.client (option number) ApiBody) :
  useSearchQuery searchText (fst (useSearchQuery searchText c))
  = useSearchQuery searchText c /\
  useJobItem id (fst (useJobItem id c')) = useJobItem id c'.
Proof.
  split.
  - unfold useSearchQuery.
    pose proof (useQuery_again searchText (Boolean_string searchText) c) as E.
    destruct (Query.useQuery searchText (Boolean_string searchText) c)
      as [c1 r1]. cbn [fst] in *. by rewrite E.
  - unfold useJobItem.
    pose proof (useQuery_again id (Boolean id) c') as E.
    destruct (Query.useQuery id (Boolean id) c') as [c1 r1].
    cbn [fst] in *. by rewrite E.
Qed.



(** ** [useJobItems] *)

Import SavedItems.

Lemma useJobItems_unfold (ids : list number)
    (c : Query.client (option number) ApiBody) :
  useJobItems ids c
  = (fold_left (fun c k => Query.observe k true c) (Some <$> ids) c,
     {| saved_jobItems :=
          omap (fun id => Query.cache c !! Some id ≫= jobItem) ids;
        saved_isLoading :=
          existsb (fun id => bool_decide (Query.cache c !! Some id = None))
                  ids |}).
Proof.
  unfold useJobItems, useQueries.
  destruct (observe_all (Some <$> ids) c) as [Hcache _].
  cbv zeta in Hcache. rewrite Hcache. clear Hcache. f_equal. f_equal.
  - induction ids as [|id ids IH]; [done|]. cbn [fmap list_fmap omap list_omap].
    cbn [observer_data]. by rewrite <- IH.
  - induction ids as [|id ids IH]; [done|]. cbn [fmap list_fmap existsb].
    cbn [observer_isLoading]. by rewrite <- IH.
Qed.

Lemma omap_length_le {A B : Type} (f : A -> option B) (l : list A) :
  (length (omap f l) <= length l)%nat.
Proof.
  induction l as [|x l IH]; [done|]. cbn [omap list_omap].
  destruct (f x); simpl; lia.
Qed.

(** X12. [useJobItems] returns, in the order of the ids, the job item of
    every id whose response is cached and carries one; ids without one are
    left out, so the list is never longer than the ids.  When it reports
    loading some id has no cached response, and when no id of the list
    has a failed request it reports loading as soon as some id has no
    cached response.  Rendering it changes nothing in the cache.  For no
    ids it returns no items, not loading, and leaves the client alone. *)
Theorem saved_items_come_from_the_cache (ids : list number)
    (c : Query.client (option number) ApiBody) :
  let r := snd (useJobItems ids c) in
  saved_jobItems r = omap (fun id => Query.cache c !! Some id ≫= jobItem) ids /\
  (length (saved_jobItems r) <= length ids)%nat /\
  (saved_isLoading r = true ->
   exists id, id ∈ ids /\ Query.cache c !! Some id = None) /\
  ((forall id, id ∈ ids -> ~ Query.failed (Some id) c) ->
   (exists id, id ∈ ids /\ Query.cache c !! Some id = None) ->
   saved_isLoading r = true) /\
  Query.cache (fst (useJobItems ids c)) = Query.cache c /\
  useJobItems [] c = (c, {| saved_jobItems := []; saved_isLoading := false |}).
Proof.
  rewrite useJobItems_unfold. cbn [fst snd saved_jobItems saved_isLoading].
  split; [done|]. split; [apply omap_length_le|].
  split; [|split; [|split; [|done]]].
  - rewrite existsb_exists.
    intros (id & Hid & Hc). apply bool_decide_eq_true in Hc.
    exists id. by rewrite list_elem_of_In.
  - intros _ (id & Hid & Hc). rewrite existsb_exists.
    exists id. rewrite <- list_elem_of_In.
    by rewrite bool_decide_eq_true.
  - by destruct (observe_all (Some <$> ids) c) as [Hcache _].
Qed.

(** X13. Rendering [useJobItems] requests only ids of the list that have
    nothing cached and nothing in flight, each of them once even when the
    list names it several times, and whatever the id is (no [enabled]
    gate: 0 and NaN are requested too).  Every such id whose request has
    not failed is requested, and afterwards every id of the list whose
    request has not failed is cached or in flight. *)
Theorem saved_items_request_each_missing_id_once (ids : list number)
    (c : Query.client (option number) ApiBody) :
  let c' := fst (useJobItems ids c) in
  exists new,
    Query.fetches c' = Query.fetches c ++ new /\
    NoDup new /\
    (forall k, k ∈ new ->
       k ∈ (Some <$> ids) /\ Query.cache c !! k = None /\
       k ∉ Query.inflight c) /\
    (forall k, k ∈ (Some <$> ids) -> Query.cache c !! k = None ->
       k ∉ Query.inflight c -> ~ Query.failed k c -> k ∈ new) /\
    (forall id, id ∈ ids -> ~ Query.failed (Some id) c ->
       is_Some (Query.cache c' !! Some id) \/ Some id ∈ Query.inflight c').
Proof.
  rewrite useJobItems_unfold. cbn [fst].
  destruct (observe_all (Some <$> ids) c) as (Hcache & new & Hf & Hnd & Hnew & Hin).
  cbv zeta in Hcache, Hf, Hin.
  exists new. split; [done|]. split; [done|].
  split; [by intros k Hk; apply Hnew|].
  split; [intros k Hk Hc Hi _; by apply Hnew|].
  intros id Hid _. rewrite Hcache.
  destruct (Query.cache c !! Some id) as [body|] eqn:Hc; [left; eauto|].
  right. apply Hin.
  destruct (decide (Some id ∈ Query.inflight c)) as [?|Hi]; [by left|].
  right. apply Hnew. split; [|done]. by apply list_elem_of_fmap_2.
Qed.

(** X14. The list and the detail panel share the cache: when the response
    for an id that [useJobItems] was rendered with arrives, [useJobItem]
    for that id returns its job item, is not loading and requests
    nothing. *)
Theorem saved_item_serves_the_detail (ids : list number) (id : number)
    (body : ApiBody) (c : Query.client (option number) ApiBody) :
  id ∈ ids -> Query.cache c !! Some id = None ->
  let c1 := fst (useJobItems ids c) in
  let c2 := Query.resolve (Some id) body c1 in
  useJobItem (Some id) c2
  = (c2, {| result_jobItem := jobItem body; jobItem_isLoading := false |}).
Proof.
  intros Hid Hc c1 c2.
  assert (Hin : Some id ∈ Query.inflight c1).
  { subst c1. rewrite useJobItems_unfold. cbn [fst].
    destruct (observe_all (Some <$> ids) c) as (_ & new & _ & _ & Hnew & Hin).
    cbv zeta in Hin. apply Hin.
    destruct (decide (Some id ∈ Query.inflight c)) as [?|Hi]; [by left|].
    right. apply Hnew. split; [|done]. by apply list_elem_of_fmap_2. }
  unfold useJobItem.
  rewrite (useQuery_cached _ _ _ body); [done|].
  subst c2. unfold Query.resolve. rewrite bool_decide_eq_true_2 by done.
  apply lookup_insert_eq.
Qed.

Lemma saved_item_serves_the_detail_witness :
  let body := {| description := None;
                 jobItem := Some (mkJobItemExpanded (mkJobItem 7 "t" "c" 1 2) "d");
                 jobItems := None |} in
  let c0 : Query.client (option number) ApiBody := Query.empty in
  let c1 := fst (useJobItems [of_Z 7; of_Z 9; of_Z 7] c0) in
  let c2 := Query.resolve (Some (of_Z 7)) body c1 in
  Query.fetches c1 = [Some (of_Z 7); Some (of_Z 9)] /\
  useJobItem (Some (of_Z 7)) c2
  = (c2, {| result_jobItem := jobItem body; jobItem_isLoading := false |}).
Proof.
  intros body c0 c1 c2. split.
  - subst c1. rewrite useJobItems_unfold. cbn [fst fmap list_fmap fold_left].
    unfold Query.observe, Query.must_fetch. cbn [andb].
    repeat (first
      [ rewrite bool_decide_eq_true_2 by
          (first [ apply lookup_empty
                 | apply not_elem_of_empty
                 | cbn; apply lookup_empty
                 | cbn; rewrite not_elem_of_union, not_elem_of_singleton;
                   split; [intros [= E%Qc_is_canon]; discriminate E
                          |apply not_elem_of_empty] ])
      | rewrite bool_decide_eq_false_2 by
          (cbn; intros Hn; apply Hn; rewrite !elem_of_union, !elem_of_singleton;
           auto) ]; cbn).
    reflexivity.
  - apply (saved_item_serves_the_detail [of_Z 7; of_Z 9; of_Z 7] (of_Z 7) body c0);
      [apply list_elem_of_here|apply lookup_empty].
Defined.

(** ** The debouncer over any timeline *)

Section DebounceMore.
Import Debounce.
Context {T : Type} `{EqDecision T}.
Variable delay : Z.
Hypothesis delay_nonneg : 0 <= delay.

Lemma last_cons_default (i j : Z * T) (rest : list (Z * T)) :
  List.last (i :: rest) j = List.last rest i.
Proof.
  revert i. induction rest as [|k rest IH]; intros i; [done|].
  cbn [List.last]. destruct rest; [done|]. apply (IH i).
Qed.

(** After the renders of a timeline the hook holds the last input and one
    timer, the last input's. *)
Lemma run_last (rest : list (Z * T)) :
  forall (t : Z) (v : T) (h : hook T),
    value h = v -> timer h = Some (t + delay, v) -> changes (t, v) rest ->
    value (run delay h rest) = snd (List.last rest (t, v)) /\
    timer (run delay h rest)
    = Some (fst (List.last rest (t, v)) + delay, snd (List.last rest (t, v))).
Proof.
  induction rest as [|[t' v'] rest IH]; intros t v h Hval Htimer Hch; [done|].
  destruct Hch as (Ht & Hv & Hch). cbn [fst snd] in Ht, Hv.
  cbn [run fold_left fst snd]. fold (run delay (render delay t' v' h) rest).
  assert (Hadv : value (advance t' h) = v).
  { unfold advance. rewrite Htimer. by destruct (t + delay <=? t'). }
  destruct (render_restarts_timer delay delay_nonneg t' v' h)
    as (Htimer' & Hval' & _).
  { by rewrite Hadv. }
  rewrite last_cons_default. by apply IH.
Qed.

Lemma survivors_no_delay (later : list (Z * T)) :
  forall (first : Z * T) (horizon : Z),
    delay = 0 -> changes first later ->
    fst (List.last later first) <= horizon ->
    survivors delay (first :: later) horizon = first :: later.
Proof.
  induction later as [|[t' v'] rest IH]; intros [t v] horizon Hd Hch Hhor;
    subst delay.
  - cbn [survivors List.last fst] in *.
    destruct (Z.leb_spec (t + 0) horizon); [|lia]. by rewrite Z.add_0_r.
  - destruct Hch as (Ht & _ & Hch). cbn [fst] in Ht.
    rewrite last_cons_default in Hhor.
    change (survivors 0 ((t, v) :: (t', v') :: rest) horizon)
      with ((if t + 0 <=? t' then [(t + 0, v)] else [])
            ++ survivors 0 ((t', v') :: rest) horizon).
    rewrite (IH (t', v') horizon eq_refl Hch Hhor).
    destruct (Z.leb_spec (t + 0) t'); [|lia]. by rewrite Z.add_0_r.
Qed.

Lemma survivors_sublist (inputs : list (Z * T)) (horizon : Z) :
  survivors delay inputs horizon
    `sublist_of` ((fun i => (fst i + delay, snd i)) <$> inputs).
Proof.
  induction inputs as [|[t v] rest IH]; [done|].
  cbn [survivors fmap list_fmap fst snd].
  destruct (_ <=? _); cbn [app]; [by apply sublist_skip|by apply sublist_cons].
Qed.
End DebounceMore.

(** X15. Once [delay] has passed since the last input of any timeline of
    changes, bursts or not, the debounced value is the last input, the
    hook's own value is that input too, and no timer is left pending. *)
Theorem debounce_settles_on_the_last_input {T : Type} `{EqDecision T}
    (delay : Z) (first : Z * T) (later : list (Z * T)) (horizon : Z) :
  0 <= delay -> Debounce.changes first later ->
  fst (List.last later first) + delay <= horizon ->
  let h := Debounce.observe delay first later horizon in
  Debounce.debouncedValue h = snd (List.last later first) /\
  Debounce.value h = snd (List.last later first) /\
  Debounce.timer h = None.
Proof.
  intros Hd Hch Hhor h. subst h. destruct first as [t0 v0].
  unfold Debounce.observe, Debounce.mount. cbn [fst snd].
  rewrite (Z.max_r 0 delay) by done.
  destruct (run_last delay Hd later t0 v0
              {| Debounce.value := v0; Debounce.debouncedValue := v0;
                 Debounce.timer := Some (t0 + delay, v0);
                 Debounce.propagated := [] |} eq_refl eq_refl Hch)
    as [Hval Htimer].
  unfold Debounce.advance. rewrite Htimer.
  destruct (Z.leb_spec (fst (List.last later (t0, v0)) + delay) horizon);
    [done|lia].
Qed.

Lemma debounce_settles_on_the_last_input_witness :
  let h := Debounce.observe 500 (0, "r") [(10, "re"); (700, "rea")] 1200 in
  Debounce.debouncedValue h = "rea" /\
  Debounce.value h = "rea" /\
  Debounce.timer h = None.
Proof.
  apply (debounce_settles_on_the_last_input 500 (0, "r")
           [(10, "re"); (700, "rea")] 1200); [lia|by repeat split|simpl; lia].
Defined.

(** X16. With a delay of 0 nothing is held back: every input of a timeline
    of changes is propagated, at its own time and in order. *)
Theorem debounce_without_delay_passes_everything {T : Type} `{EqDecision T}
    (first : Z * T) (later : list (Z * T)) (horizon : Z) :
  Debounce.changes first later ->
  fst (List.last later first) <= horizon ->
  Debounce.propagated (Debounce.observe 0 first later horizon)
  = first :: later.
Proof.
  intros Hch Hhor. destruct first as [t0 v0].
  unfold Debounce.observe, Debounce.mount. cbn [fst snd].
  change (Z.max 0 0) with 0.
  rewrite (run_survivors 0 (Z.le_refl 0) later t0 v0) by done.
  cbn [Debounce.propagated app].
  by apply survivors_no_delay.
Qed.

(** X17. The debouncer hands on nothing but its inputs: for a delay that
    is not negative and a timeline of changes seen at a time not before
    the last of them, the values given to [setDebouncedValue], with their
    times, are a sublist of the inputs each moved [delay] later; so every
    propagated value is an input, propagated exactly [delay] after it
    arrived, at most once, and in the order of arrival. *)
Theorem debounce_propagates_only_inputs {T : Type} `{EqDecision T}
    (delay : Z) (first : Z * T) (later : list (Z * T)) (horizon : Z) :
  0 <= delay -> Debounce.changes first later ->
  fst (List.last later first) <= horizon ->
  Debounce.propagated (Debounce.observe delay first later horizon)
    `sublist_of` ((fun i => (fst i + delay, snd i)) <$> (first :: later)).
Proof.
  intros Hd Hch _. destruct first as [t0 v0].
  unfold Debounce.observe, Debounce.mount. cbn [fst snd].
  rewrite (Z.max_r 0 delay) by done.
  rewrite (run_survivors delay Hd later t0 v0) by done.
  cbn [Debounce.propagated app]. apply survivors_sublist.
Qed.

Lemma debounce_propagates_only_inputs_witness :
  Debounce.propagated
    (Debounce.observe 500 (0, "r") [(10, "re"); (700, "rea")] 900)
  = [(510, "re")] /\
  Debounce.propagated
    (Debounce.observe 500 (0, "r") [(10, "re"); (700, "rea")] 900)
    `sublist_of` [(500, "r"); (510, "re"); (1200, "rea")].
Proof.
  split; [reflexivity|].
  apply (debounce_propagates_only_inputs 500 (0, "r")
           [(10, "re"); (700, "rea")] 900);
    [lia|by repeat split|simpl; lia].
Defined.

Lemma debounce_without_delay_passes_everything_witness :
  Debounce.propagated
    (Debounce.observe 0 (0, "r") [(10, "re"); (20, "rea")] 20)
  = [(0, "r"); (10, "re"); (20, "rea")].
Proof.
  apply (debounce_without_delay_passes_everything (0, "r")
           [(10, "re"); (20, "rea")] 20); [by repeat split|simpl; lia].
Defined.

(** ** More fragments *)

Lemma trim_start_ws w : all_str_ws w -> trim_start w = "".
Proof.
  induction w as [|c w IH]; [done|]. intros Hw. cbn [trim_start].
  rewrite (Hw c) by (simpl; auto). apply IH.
  intros c' Hc'. apply Hw. simpl. auto.
Qed.

Lemma digits_value_leading_zero ds :
  all_digits ds -> digits_value ("0" +:+ ds) = digits_value ds.
Proof.
  intros Hds. unfold digits_value.
  change (NilEmpty.uint_of_string ("0" +:+ ds))
    with (uint_of_char "0" (NilEmpty.uint_of_string ds)).
  destruct (NilEmpty.uint_of_string ds) as [d|]; reflexivity.
Qed.

(** X18. A fragment that is ["#"] followed only by white space selects
    nothing: the active id is the number 0, and [useJobItem] with it
    requests nothing. *)
Theorem blank_fragment_selects_nothing (w : string)
    (c : Query.client (option number) ApiBody) :
  all_str_ws w ->
  useActiveId ["#" +:+ w] = Some (of_Z 0) /\
  fst (useJobItem (useActiveId ["#" +:+ w]) c) = c.
Proof.
  intros Hw.
  assert (E : useActiveId ["#" +:+ w] = Some (of_Z 0)).
  { unfold useActiveId, handleHashChange. cbn [fold_left].
    change (slice1 ("#" +:+ w)) with w.
    unfold to_number, trim. by rewrite trim_start_ws. }
  rewrite E. split; [done|]. by apply useJobItem_disabled.
Qed.

Lemma blank_fragment_selects_nothing_witness :
  useActiveId ["#  "] = Some (of_Z 0) /\
  fst (useJobItem (useActiveId ["#  "]) Query.empty) = Query.empty.
Proof.
  apply (blank_fragment_selects_nothing "  " Query.empty).
  intros c [<-|[<-|[]]]; reflexivity.
Defined.

(** X19. A fragment of decimal digits that denote an integer of at most
    [2^53], which a number holds exactly, selects that integer, with or
    without leading zeros, and with a minus sign in front its negative:
    ["#007"] and ["#7"] select the same id. *)
Theorem digits_fragment_selects_their_value (ds : string) :
  all_digits ds -> ds <> "" ->
  Z.of_N (digits_value ds) <= 2 ^ 53 ->
  useActiveId ["#" +:+ ds] = Some (of_Z (Z.of_N (digits_value ds))) /\
  useActiveId ["#-" +:+ ds] = Some (of_Z (- Z.of_N (digits_value ds))) /\
  useActiveId ["#0" +:+ ds] = useActiveId ["#" +:+ ds].
Proof.
  intros Hds Hne Hv.
  destruct (to_number_digits ds Hds Hne) as [E1 E2].
  assert (Hds0 : all_digits ("0" +:+ ds)).
  { intros c [<-|Hc]; [reflexivity|by apply Hds]. }
  destruct (to_number_digits ("0" +:+ ds) Hds0) as [E3 _]; [done|].
  assert (Hex : binary64 (inject_Z (Z.of_N (digits_value ds)))
                = of_Z (Z.of_N (digits_value ds))).
  { apply binary64_exact; [|done]. unfold exact_integer. lia. }
  unfold useActiveId, handleHashChange. cbn [fold_left].
  change (slice1 ("#" +:+ ds)) with ds.
  change (slice1 ("#-" +:+ ds)) with ("-" +:+ ds).
  change (slice1 ("#0" +:+ ds)) with ("0" +:+ ds).
  rewrite E1, E2, E3, digits_value_leading_zero, Hex, neg_of_Z by done. done.
Qed.

Lemma digits_fragment_selects_their_value_witness :
  useActiveId ["#007"] = Some (of_Z 7) /\
  useActiveId ["#-07"] = Some (of_Z (-7)) /\
  useActiveId ["#007"] = useActiveId ["#07"].
Proof.
  apply (digits_fragment_selects_their_value "07"); [|done|by vm_compute].
  intros c [<-|[<-|[]]]; reflexivity.
Defined.

(** ** Clicks outside *)

Section ClickOutsideFacts.
Import ClickOutside.
Context {node : Type}.
Variable contains : node -> node -> bool.

Lemma misses_all (refs : list (option node)) (target : node) :
  forallb (misses contains target) refs = true <->
  forall el, Some el ∈ refs -> contains el target = false.
Proof.
  rewrite forallb_forall. split.
  - intros Hall el Hel. apply list_elem_of_In in Hel.
    specialize (Hall _ Hel). unfold misses in Hall. simpl in Hall.
    by apply negb_true_iff.
  - intros Hall [el|] Hin; [|done]. apply list_elem_of_In in Hin.
    unfold misses. simpl. by rewrite (Hall el Hin).
Qed.

Lemma run_app refs (h : hook) (es1 es2 : list (event (node := node))) :
  run contains refs h (es1 ++ es2)
  = run contains refs (run contains refs h es1) es2.
Proof. apply fold_left_app. Qed.

Lemma run_cons refs (h : hook) (e : event (node := node)) es :
  run contains refs h (e :: es) = run contains refs (step contains refs h e) es.
Proof. reflexivity. Qed.

Lemma run_clicks_listening refs (targets : list node) (n : nat) :
  run contains refs {| listening := true; calls := n |} (Click <$> targets)
  = {| listening := true;
       calls := n + length (filter
                  (fun t => forallb (misses contains t) refs = true) targets) |}.
Proof.
  revert n. induction targets as [|t targets IH]; intros n.
  - simpl. f_equal. lia.
  - cbn [fmap list_fmap run fold_left step listening calls].
    fold (run contains refs
            {| listening := true;
               calls := handleClick contains refs t n |} (Click <$> targets)).
    rewrite IH, filter_cons. unfold handleClick.
    destruct (forallb (misses contains t) refs) eqn:E.
    + rewrite decide_True by done. f_equal. simpl. lia.
    + rewrite decide_False by done. done.
Qed.

Lemma run_clicks_detached refs (targets : list node) (n : nat) :
  run contains refs {| listening := false; calls := n |} (Click <$> targets)
  = {| listening := false; calls := n |}.
Proof. induction targets as [|t targets IH]; [done|]. exact IH. Qed.
End ClickOutsideFacts.

(** X20. Between mounting and unmounting, [handler] runs once for each
    click whose target none of the attached refs contains (a ref that is
    not attached never holds a click back); clicks before the mount or
    after the cleanup run nothing. *)
Theorem click_outside_runs_the_handler {node : Type}
    (contains : node -> node -> bool) (refs : list (option node))
    (early during late : list node) :
  let outside t := forallb (ClickOutside.misses contains t) refs = true in
  ClickOutside.calls
    (ClickOutside.run contains refs
       {| ClickOutside.listening := false; ClickOutside.calls := 0 |}
       ((ClickOutside.Click <$> early)
        ++ ClickOutside.Mount :: (ClickOutside.Click <$> during)
        ++ ClickOutside.Unmount :: (ClickOutside.Click <$> late)))
  = length (filter outside during) /\
  (forall t, outside t <-> forall el, Some el ∈ refs -> contains el t = false).
Proof.
  intros outside. split; [|intros t; apply misses_all].
  rewrite run_app, run_clicks_detached, run_cons.
  cbn [ClickOutside.step ClickOutside.calls].
  rewrite run_app, run_clicks_listening, run_cons.
  cbn [ClickOutside.step ClickOutside.calls].
  by rewrite run_clicks_detached.
Qed.
